(** * Lighting and hint-glow engine of the 3D desk portfolio

    A shallow embedding of the lighting system ([js/systems/lighting.js]),
    the outline-pass overlay installed by the scene manager
    ([js/core/scene.js]) and the hint scheduler of the interaction manager,
    together with the properties the design document states about them.

    Numbers.  The JavaScript side only adds, subtracts, multiplies, divides
    and compares numbers, so a JS number is modelled as an exact rational
    ([Q]); a JS decimal literal such as [0.4] is the rational [4/10].
    Rounding of IEEE doubles (and of the [Float32Array] store) is outside
    the model, and so are the non-finite values: a division whose divisor
    is zero is reported as the outcome [NonFinite] instead of being carried
    on as [Infinity] or [NaN].  The GLSL fragment program needs square
    roots and real powers and is modelled over the real numbers ([R]). *)

From Stdlib Require Import ZArith QArith Qfield Lqa Lia List.
From Stdlib Require Import Reals Lra.
From stdpp Require Import base option list gmap strings.

Local Open Scope Q_scope.

(** ** Outcomes of a JavaScript method call *)

Inductive outcome (A : Type) : Type :=
| Done (a : A)            (* normal completion *)
| TypeError               (* a property of [undefined]/[null] was read or written *)
| NonFinite.              (* a division by zero left the rational model *)
Arguments Done {A} a.
Arguments TypeError {A}.
Arguments NonFinite {A}.

Definition obind {A B} (m : outcome A) (k : A -> outcome B) : outcome B :=
  match m with
  | Done a => k a
  | TypeError => TypeError
  | NonFinite => NonFinite
  end.

#[global] Instance outcome_ret : MRet outcome := @Done.
#[global] Instance outcome_bind : MBind outcome := fun A B k m => obind m k.

Definition Qlt_bool (a b : Q) : bool := negb (Qle_bool b a).

(** Linear arithmetic over the rationals and over the reals. *)
Ltac qlra := Lqa.lra.
Ltac rlra := Lra.lra.

(** ** The parts of three.js (r128) the lighting code calls *)

Module Color.
Record t := mk { r : Q; g : Q; b : Q }.

(** [Color.setHex]: the three bytes of [hex], each divided by 255. *)
Definition setHex (hex : Z) : t :=
  {| r := inject_Z (Z.land (Z.shiftr hex 16) 255) / 255;
     g := inject_Z (Z.land (Z.shiftr hex 8) 255) / 255;
     b := inject_Z (Z.land hex 255) / 255 |}.

(** [this.copy(c)] overwrites the three channels of the receiver. *)
Definition copy (_this c : t) : t := c.

(** [this.lerp(c, alpha)]: [this.r += (c.r - this.r) * alpha], etc. *)
Definition lerp (this c : t) (alpha : Q) : t :=
  {| r := r this + (r c - r this) * alpha;
     g := g this + (g c - g this) * alpha;
     b := b this + (b c - b this) * alpha |}.

(** Channel-wise equality of rationals. *)
Definition equiv (c d : t) : Prop := r c == r d /\ g c == g d /\ b c == b d.
End Color.

Module Vector3.
Record t := mk { x : Q; y : Q; z : Q }.
Definition zero : t := mk 0 0 0.
Definition copy (_this v : t) : t := v.
End Vector3.

Module Date.
(** What [new Date()] is asked for: [getHours()] and [getMinutes()]. *)
Record t := mk { getHours : nat; getMinutes : nat }.
Definition valid (d : t) : Prop := (getHours d < 24)%nat /\ (getMinutes d < 60)%nat.
End Date.

(** ** The lighting system *)

Module Keyframe.
Record t := mk { hour : Q; color : Z; intensity : Q }.
End Keyframe.

Module Light.
Record t := mk { color : Color.t; intensity : Q; position : Vector3.t }.
Definition set_color (c : Color.t) (l : t) : t := mk c (intensity l) (position l).
Definition set_intensity (i : Q) (l : t) : t := mk (color l) i (position l).
End Light.

Inductive Blending := NormalBlending | AdditiveBlending.
Inductive Side := FrontSide | BackSide | DoubleSide.

Module Glare.
(** The uniform bag of one glare material. *)
Record uniforms := mkUniforms {
  uLightPositions : list Vector3.t;
  uLightColors : list Color.t;
  uLightIntensities : list Q;          (* a Float32Array of length 4 *)
  uCameraPosition : Vector3.t;
  uGlareIntensity : Q;
  uGlareSharpness : Q;
  uFresnelPower : Q
}.

Record material := mkMaterial {
  mat_uniforms : uniforms;
  transparent : bool;
  depthWrite : bool;
  blending : Blending;
  side : Side
}.

Definition set_camera (p : Vector3.t) (m : material) : material :=
  let u := mat_uniforms m in
  mkMaterial
    (mkUniforms (uLightPositions u) (uLightColors u) (uLightIntensities u)
                (Vector3.copy (uCameraPosition u) p)
                (uGlareIntensity u) (uGlareSharpness u) (uFresnelPower u))
    (transparent m) (depthWrite m) (blending m) (side m).

(** [uLightIntensities.value[i] = v]; a typed array ignores a write past
    its end, as the list update does. *)
Definition set_intensity (i : nat) (v : Q) (m : material) : material :=
  let u := mat_uniforms m in
  mkMaterial
    (mkUniforms (uLightPositions u) (uLightColors u)
                (<[i := v]> (uLightIntensities u))
                (uCameraPosition u)
                (uGlareIntensity u) (uGlareSharpness u) (uFresnelPower u))
    (transparent m) (depthWrite m) (blending m) (side m).

(** Four slots in each of the three arrays. *)
Definition wf (m : material) : Prop :=
  length (uLightPositions (mat_uniforms m)) = 4%nat /\
  length (uLightColors (mat_uniforms m)) = 4%nat /\
  length (uLightIntensities (mat_uniforms m)) = 4%nat.
End Glare.

Module Options.
(** The [options] argument of [createGlareMaterial]; an absent key is [None]. *)
Record t := mk {
  glareIntensity : option Q;
  glareSharpness : option Q;
  fresnelPower : option Q
}.
Definition empty : t := mk None None None.
End Options.

Module Lights.
Record t := mk {
  ambient : option Light.t;
  hemisphere : option Light.t;
  main : option Light.t;
  fill : option Light.t;
  rim : option Light.t
}.
End Lights.

Module EnvMap.
(** The texture [PMREMGenerator.fromScene] bakes: what it was baked from. *)
Record t := fromScene { scene : list Light.t; sigma : Q }.
End EnvMap.

Module LightingSystem.
Record t := mk {
  lights : Lights.t;
  emissiveLights : list Light.t;
  glareMaterials : list Glare.material;
  _startColor : Color.t;
  _endColor : Color.t;
  dayNightKeyframes : list Keyframe.t;
  envMap : option EnvMap.t
}.

(** The constructor. *)
Definition new : t :=
  {| lights := Lights.mk None None None None None;
     emissiveLights := [];
     glareMaterials := [];
     _startColor := Color.mk 1 1 1;
     _endColor := Color.mk 1 1 1;
     dayNightKeyframes :=
       [ Keyframe.mk 0 0x1a1a2e 0.3;
         Keyframe.mk 5 0x2a2a4e 0.4;
         Keyframe.mk 7 0xffaa77 0.8;
         Keyframe.mk 10 0xffeedd 1.2;
         Keyframe.mk 16 0xffeedd 1.1;
         Keyframe.mk 19 0xff9966 0.7;
         Keyframe.mk 21 0x1a1a2e 0.35;
         Keyframe.mk 24 0x1a1a2e 0.3 ];
     envMap := None |}.

Definition with_lights (l : Lights.t) (s : t) : t :=
  mk l (emissiveLights s) (glareMaterials s) (_startColor s) (_endColor s)
     (dayNightKeyframes s) (envMap s).

(** [LIGHTING_CONFIG] of [config.js]: the two point lights. *)
Definition LIGHTING_CONFIG_fill_intensity : Q := 0.5.
Definition LIGHTING_CONFIG_rim_intensity : Q := 0.2.

(** [setupLights]: the five lights of the rig. *)
Definition setupLights (s : t) : t :=
  with_lights
    {| Lights.ambient :=
         Some (Light.mk (Color.setHex 0x1a1a24) 0.35 Vector3.zero);
       Lights.hemisphere :=
         Some (Light.mk (Color.setHex 0x87AECB) 0.25 (Vector3.mk 0 1 0));
       Lights.main :=
         Some (Light.mk (Color.setHex 0xffeedd) 0.22 (Vector3.mk (-5) 8 3));
       Lights.fill :=
         Some (Light.mk (Color.setHex 0xaaccff) LIGHTING_CONFIG_fill_intensity
                        (Vector3.mk 5 4 2));
       Lights.rim :=
         Some (Light.mk (Color.setHex 0xffffff) LIGHTING_CONFIG_rim_intensity
                        (Vector3.mk 0 4 (-6))) |}
    s.

(** [createEnvironmentMap]: the auxiliary scene of three directional lights
    with ambient and hemisphere fill, baked with blur 0.04 and kept in
    [envMap] (and handed to the scene). *)
Definition createEnvironmentMap (s : t) : t :=
  let lampLight := Light.mk (Color.setHex 0xffddaa) 0.4 (Vector3.mk 2.5 2 (-1)) in
  let screenLight := Light.mk (Color.setHex 0xd0e0ff) 0.3 (Vector3.mk 0 1.5 1) in
  let windowLight := Light.mk (Color.setHex 0xffeedd) 0.25 (Vector3.mk (-5) 8 3) in
  let ambientLight := Light.mk (Color.setHex 0x1a1a2e) 0.9 Vector3.zero in
  let hemisphereLight := Light.mk (Color.setHex 0x87AECB) 0.2 (Vector3.mk 0 1 0) in
  let envScene := [lampLight; screenLight; windowLight; ambientLight; hemisphereLight] in
  mk (lights s) (emissiveLights s) (glareMaterials s) (_startColor s) (_endColor s)
     (dayNightKeyframes s) (Some (EnvMap.fromScene envScene 0.04)).

(** [init]: the area-light table is library state; then
    [createEnvironmentMap] and [setupLights].  Nothing here throws, and no
    step reads [dayNightKeyframes]. *)
Definition init (s : t) : outcome t :=
  Done (setupLights (createEnvironmentMap s)).

Definition addEmissiveLight (light : Light.t) (s : t) : t :=
  mk (lights s) (emissiveLights s ++ [light]) (glareMaterials s)
     (_startColor s) (_endColor s) (dayNightKeyframes s) (envMap s).

(** [createGlareMaterial]: builds the material and registers it. *)
Definition createGlareMaterial (options : Options.t) (s : t) : Glare.material * t :=
  let glareIntensity := default 0.35 (Options.glareIntensity options) in
  let glareSharpness := default 6.0 (Options.glareSharpness options) in
  let fresnelPower := default 2.5 (Options.fresnelPower options) in
  let uniforms :=
    {| Glare.uLightPositions :=
         [ Vector3.mk (-5) 8 3; Vector3.mk 2.5 2 (-1); Vector3.zero; Vector3.zero ];
       Glare.uLightColors :=
         [ Color.setHex 0xffeedd; Color.setHex 0xffddaa;
           Color.setHex 0x000000; Color.setHex 0x000000 ];
       Glare.uLightIntensities := [ 0.22; 0.8; 0; 0 ];
       Glare.uCameraPosition := Vector3.zero;
       Glare.uGlareIntensity := glareIntensity;
       Glare.uGlareSharpness := glareSharpness;
       Glare.uFresnelPower := fresnelPower |} in
  let material := Glare.mkMaterial uniforms true false AdditiveBlending FrontSide in
  (material,
   mk (lights s) (emissiveLights s) (glareMaterials s ++ [material])
      (_startColor s) (_endColor s) (dayNightKeyframes s) (envMap s)).

(** [updateGlare]: every registered material gets the camera position. *)
Definition updateGlare (cameraPosition : Vector3.t) (s : t) : t :=
  mk (lights s) (emissiveLights s)
     (Glare.set_camera cameraPosition <$> glareMaterials s)
     (_startColor s) (_endColor s) (dayNightKeyframes s) (envMap s).

(** The test of the scan: [hour >= k_i.hour && hour < k_{i+1}.hour]. *)
Definition brackets (hour : Q) (a b : Keyframe.t) : bool :=
  Qle_bool (Keyframe.hour a) hour && Qlt_bool hour (Keyframe.hour b).

(** The [for] loop with its [break], from index [i], with [n] rounds left. *)
Fixpoint scanFrom (kfs : list Keyframe.t) (hour : Q) (i n : nat)
  : option (Keyframe.t * Keyframe.t) :=
  match n with
  | O => None
  | S n' =>
      match kfs !! i, kfs !! S i with
      | Some a, Some b =>
          if brackets hour a b then Some (a, b) else scanFrom kfs hour (S i) n'
      | _, _ => None
      end
  end.

(** [startFrame] and [endFrame] after the loop: the first bracketing pair,
    else the first and the last keyframe ([undefined] on an empty table). *)
Definition findInterval (kfs : list Keyframe.t) (hour : Q)
  : option Keyframe.t * option Keyframe.t :=
  match scanFrom kfs hour 0 (length kfs - 1) with
  | Some (a, b) => (Some a, Some b)
  | None => (kfs !! 0%nat, kfs !! (length kfs - 1)%nat)
  end.

(** [hour = now.getHours() + now.getMinutes() / 60]. *)
Definition hourOf (now : Date.t) : Q :=
  inject_Z (Z.of_nat (Date.getHours now))
  + inject_Z (Z.of_nat (Date.getMinutes now)) / 60.

Definition set_glare_window (v : Q) (s : t) : t :=
  mk (lights s) (emissiveLights s)
     (Glare.set_intensity 0 v <$> glareMaterials s)
     (_startColor s) (_endColor s) (dayNightKeyframes s) (envMap s).

(** The body of [updateDayNightCycle] once [hour] is known. *)
Definition updateDayNightCycleAt (hour : Q) (s : t) : outcome t :=
  match Lights.main (lights s) with
  | None => Done s
  | Some mainLight =>
      match findInterval (dayNightKeyframes s) hour with
      | (Some startFrame, Some endFrame) =>
          let span := Keyframe.hour endFrame - Keyframe.hour startFrame in
          if Qeq_bool span 0 then NonFinite
          else
            let t := (hour - Keyframe.hour startFrame) / span in
            let startColor := Color.setHex (Keyframe.color startFrame) in
            let endColor := Color.setHex (Keyframe.color endFrame) in
            let color :=
              Color.lerp (Color.copy (Light.color mainLight) startColor) endColor t in
            let mainIntensity :=
              Keyframe.intensity startFrame
              + (Keyframe.intensity endFrame - Keyframe.intensity startFrame) * t in
            let L := lights s in
            let L' :=
              {| Lights.ambient :=
                   Light.set_intensity (0.2 + mainIntensity * 0.25) <$> Lights.ambient L;
                 Lights.hemisphere :=
                   Light.set_intensity (0.1 + mainIntensity * 0.25) <$> Lights.hemisphere L;
                 Lights.main :=
                   Some (Light.set_intensity mainIntensity (Light.set_color color mainLight));
                 Lights.fill := Lights.fill L;
                 Lights.rim := Lights.rim L |} in
            Done (set_glare_window mainIntensity
                    (mk L' (emissiveLights s) (glareMaterials s)
                        startColor endColor (dayNightKeyframes s) (envMap s)))
      | _ => TypeError
      end
  end.

Definition updateDayNightCycle (now : Date.t) (s : t) : outcome t :=
  updateDayNightCycleAt (hourOf now) s.

(** [update(camera)], called once per frame. *)
Definition update (now : Date.t) (cameraPosition : Vector3.t) (s : t) : outcome t :=
  s1 ← updateDayNightCycle now s;
  mret (updateGlare cameraPosition s1).

(** The keyframe-table invariant of the design document. *)
Fixpoint strictlyIncreasing (kfs : list Keyframe.t) : bool :=
  match kfs with
  | a :: (b :: _) as rest =>
      Qlt_bool (Keyframe.hour a) (Keyframe.hour b) && strictlyIncreasing rest
  | _ => true
  end.

Definition tableInvariant (kfs : list Keyframe.t) : bool :=
  strictlyIncreasing kfs
  && match kfs !! 0%nat with
     | Some k => Qeq_bool (Keyframe.hour k) 0
     | None => false
     end
  && match kfs !! (length kfs - 1)%nat with
     | Some k => Qeq_bool (Keyframe.hour k) 24
     | None => false
     end.

(** The state [updateDayNightCycle] leaves behind when it interpolates
    between [a] and [b] with a sun light [sun] in the rig. *)
Definition interpolated (hour : Q) (a b : Keyframe.t) (sun : Light.t) (s : t) : t :=
  let t := (hour - Keyframe.hour a) / (Keyframe.hour b - Keyframe.hour a) in
  let mainIntensity :=
    Keyframe.intensity a + (Keyframe.intensity b - Keyframe.intensity a) * t in
  set_glare_window mainIntensity
    (mk {| Lights.ambient :=
             Light.set_intensity (0.2 + mainIntensity * 0.25)
               <$> Lights.ambient (lights s);
           Lights.hemisphere :=
             Light.set_intensity (0.1 + mainIntensity * 0.25)
               <$> Lights.hemisphere (lights s);
           Lights.main :=
             Some (Light.mk
                     (Color.lerp (Color.setHex (Keyframe.color a))
                                 (Color.setHex (Keyframe.color b)) t)
                     mainIntensity (Light.position sun));
           Lights.fill := Lights.fill (lights s);
           Lights.rim := Lights.rim (lights s) |}
        (emissiveLights s) (glareMaterials s)
        (Color.setHex (Keyframe.color a)) (Color.setHex (Keyframe.color b))
        (dayNightKeyframes s) (envMap s)).

(** A lighting system whose table has the sentinel hour mistyped as 0. *)
Definition malformedSystem : t :=
  mk (lights new) [] [] (_startColor new) (_endColor new)
     [ Keyframe.mk 0 0x1a1a2e 0.3;
       Keyframe.mk 5 0x2a2a4e 0.4;
       Keyframe.mk 7 0xffaa77 0.8;
       Keyframe.mk 10 0xffeedd 1.2;
       Keyframe.mk 16 0xffeedd 1.1;
       Keyframe.mk 19 0xff9966 0.7;
       Keyframe.mk 21 0x1a1a2e 0.35;
       Keyframe.mk 0 0x1a1a2e 0.3 ]
     None.
End LightingSystem.

(** ** The glare fragment program (GLSL), over the reals *)

Module GlareShader.
Local Open Scope R_scope.

Record vec3 := mk3 { vx : R; vy : R; vz : R }.
Record vec4 := mk4 { rgb : vec3; alpha : R }.

Definition vzero : vec3 := mk3 0 0 0.
Definition vadd (a b : vec3) : vec3 := mk3 (vx a + vx b) (vy a + vy b) (vz a + vz b).
Definition vsub (a b : vec3) : vec3 := mk3 (vx a - vx b) (vy a - vy b) (vz a - vz b).
Definition vscale (a : vec3) (k : R) : vec3 := mk3 (vx a * k) (vy a * k) (vz a * k).
Definition dot (a b : vec3) : R := vx a * vx b + vy a * vy b + vz a * vz b.
Definition length (a : vec3) : R := sqrt (dot a a).
Definition normalize (a : vec3) : vec3 := vscale a (/ length a).

(** GLSL [pow(x, y)]; the standard leaves it undefined for [x < 0] and for
    [x = 0] with [y <= 0], where this model answers [0]. *)
Definition pow (x y : R) : R := if Rle_dec x 0 then 0 else Rpower x y.
Definition max (x y : R) : R := Rmax x y.
(** GLSL [clamp(x, lo, hi)] is [min(max(x, lo), hi)]. *)
Definition clamp (x lo hi : R) : R := Rmin (Rmax x lo) hi.

Record uniforms := mkUniforms {
  uLightPositions : list vec3;
  uLightColors : list vec3;
  uLightIntensities : list R;
  uCameraPosition : vec3;
  uGlareIntensity : R;
  uGlareSharpness : R;
  uFresnelPower : R
}.

(** One round of the [for] loop over the light slots. *)
Definition accumulate (u : uniforms) (vWorldPosition viewDir normal : vec3)
           (glareColor : vec3) (i : nat) : vec3 :=
  let intensity := nth i (uLightIntensities u) 0 in
  let lightPos := nth i (uLightPositions u) vzero in
  let lightColor := nth i (uLightColors u) vzero in
  if Rlt_dec 0 intensity then
    let lightDir := normalize (vsub lightPos vWorldPosition) in
    let halfDir := normalize (vadd lightDir viewDir) in
    let spec := pow (max (dot normal halfDir) 0) (uGlareSharpness u * 10) in
    let dist := length (vsub lightPos vWorldPosition) in
    let attenuation := 1 / (1 + 0.05 * dist + 0.01 * dist * dist) in
    vadd glareColor (vscale (vscale (vscale lightColor spec) intensity) attenuation)
  else glareColor.

(** [main()] of the fragment program: the value of [gl_FragColor]. *)
Definition fragmentShader (u : uniforms) (vWorldPosition vWorldNormal : vec3) : vec4 :=
  let viewDir := normalize (vsub (uCameraPosition u) vWorldPosition) in
  let normal := normalize vWorldNormal in
  let fresnel := pow (1 - max (dot viewDir normal) 0) (uFresnelPower u) in
  let glareColor :=
    fold_left (accumulate u vWorldPosition viewDir normal) (seq 0 4) vzero in
  let alpha0 := length glareColor * uGlareIntensity u + fresnel * 0.08 in
  let alpha1 := clamp alpha0 0 0.7 in
  let finalColor := vadd glareColor (vscale (vscale (mk3 0.9 0.95 1) fresnel) 0.05) in
  mk4 finalColor alpha1.

(** The uniform bag of a JS-side material as the program receives it. *)
Definition ofVector (v : Vector3.t) : vec3 :=
  mk3 (Q2R (Vector3.x v)) (Q2R (Vector3.y v)) (Q2R (Vector3.z v)).
Definition ofColor (c : Color.t) : vec3 :=
  mk3 (Q2R (Color.r c)) (Q2R (Color.g c)) (Q2R (Color.b c)).
Definition ofMaterial (m : Glare.material) : uniforms :=
  let u := Glare.mat_uniforms m in
  {| uLightPositions := map ofVector (Glare.uLightPositions u);
     uLightColors := map ofColor (Glare.uLightColors u);
     uLightIntensities := map Q2R (Glare.uLightIntensities u);
     uCameraPosition := ofVector (Glare.uCameraPosition u);
     uGlareIntensity := Q2R (Glare.uGlareIntensity u);
     uGlareSharpness := Q2R (Glare.uGlareSharpness u);
     uFresnelPower := Q2R (Glare.uFresnelPower u) |}.
End GlareShader.

(** ** The outline pass and its replacement overlay material *)

Module Overlay.
Record vec4 := mk4 { cr : Q; cg : Q; cb : Q; ca : Q }.
Definition vadd (p q : vec4) : vec4 :=
  mk4 (cr p + cr q) (cg p + cg q) (cb p + cb q) (ca p + ca q).
(** [v * k] and [k * v] of GLSL, component by component. *)
Definition vmulr (p : vec4) (k : Q) : vec4 := mk4 (cr p * k) (cg p * k) (cb p * k) (ca p * k).
Definition vmull (k : Q) (p : vec4) : vec4 := mk4 (k * cr p) (k * cg p) (k * cb p) (k * ca p).

Definition uv : Type := Q * Q.
Definition sampler : Type := uv -> vec4.

(** The [value] of one uniform slot. *)
Inductive uvalue :=
| UNull
| UFloat (v : Q)
| UTexture (tex : sampler).

Record ShaderMaterial := mk {
  uniforms : gmap string uvalue;
  fragmentShader : gmap string uvalue -> uv -> vec4;
  blending : Blending;
  depthTest : bool;
  depthWrite : bool;
  transparent : bool
}.

(** [texture2D(name, vUv)]; an unbound sampler reads opaque black. *)
Definition texture2D (u : gmap string uvalue) (name : string) (vUv : uv) : vec4 :=
  match u !! name with
  | Some (UTexture tex) => tex vUv
  | _ => mk4 0 0 0 1
  end.

Definition float (u : gmap string uvalue) (name : string) : Q :=
  match u !! name with
  | Some (UFloat v) => v
  | _ => 0
  end.

(** The fragment program of the replacement: it declares and reads the two
    edge textures, [edgeStrength] and [edgeGlow]. *)
Definition replacementFragment (u : gmap string uvalue) (vUv : uv) : vec4 :=
  let edge :=
    vadd (texture2D u "edgeTexture1" vUv)
         (vmulr (texture2D u "edgeTexture2" vUv) (float u "edgeGlow")) in
  vmull (float u "edgeStrength") edge.

(** The [ShaderMaterial] built in [setupPostProcessing]. *)
Definition replacement : ShaderMaterial :=
  {| uniforms :=
       <["maskTexture" := UNull]>
       (<["edgeTexture1" := UNull]>
       (<["edgeTexture2" := UNull]>
       (<["patternTexture" := UNull]>
       (<["edgeStrength" := UFloat 1.0]>
       (<["edgeGlow" := UFloat 1.0]>
       (<["usePatternTexture" := UFloat 0.0]> ∅))))));
     fragmentShader := replacementFragment;
     blending := AdditiveBlending;
     depthTest := false;
     depthWrite := false;
     transparent := true |}.

(** [material.uniforms[name].value = v]: reading [.value] off a missing
    slot is a [TypeError]. *)
Definition writeUniform (name : string) (v : uvalue) (u : gmap string uvalue)
  : outcome (gmap string uvalue) :=
  match u !! name with
  | Some _ => Done (<[name := v]> u)
  | None => TypeError
  end.

(** What the render step of the outline pass hands to the overlay. *)
Record frame := mkFrame {
  maskBuffer : sampler;
  edgeBuffer1 : sampler;
  blurBuffer2 : sampler;
  patternTexture : option sampler;
  passEdgeStrength : Q;
  passEdgeGlow : Q;
  usePatternTexture : bool
}.

(** The seven slots the render step of three.js' [OutlinePass] assigns
    before it draws the overlay quad, in its order. *)
Definition renderSlots : list string :=
  [ "maskTexture"; "edgeTexture1"; "edgeTexture2"; "patternTexture";
    "edgeStrength"; "edgeGlow"; "usePatternTexture" ]%string.

Definition slotValue (f : frame) (name : string) : uvalue :=
  if String.eqb name "maskTexture" then UTexture (maskBuffer f)
  else if String.eqb name "edgeTexture1" then UTexture (edgeBuffer1 f)
  else if String.eqb name "edgeTexture2" then UTexture (blurBuffer2 f)
  else if String.eqb name "patternTexture" then
    match patternTexture f with Some t => UTexture t | None => UNull end
  else if String.eqb name "edgeStrength" then UFloat (passEdgeStrength f)
  else if String.eqb name "edgeGlow" then UFloat (passEdgeGlow f)
  else UFloat (if usePatternTexture f then 1 else 0).

Fixpoint writeSlots (f : frame) (names : list string) (u : gmap string uvalue)
  : outcome (gmap string uvalue) :=
  match names with
  | [] => Done u
  | name :: rest => u' ← writeUniform name (slotValue f name) u; writeSlots f rest u'
  end.

(** The overlay composite of one frame: the uniform writes, then the
    colour the fragment program gives each pixel. *)
Definition renderOverlay (f : frame) (m : ShaderMaterial) : outcome (uv -> vec4) :=
  u' ← writeSlots f renderSlots (uniforms m);
  mret (fragmentShader m u').
End Overlay.

Module Object3D.
(** An interactive object as the interaction manager uses it: its identity
    ([===] compares [uid]), its world position and what [ZOOM_CONFIG] and
    its rotation make of the camera offset
    ([offsetX], [yOffset], [offsetZ]) and of [targetYOffset]. *)
Record t := mk {
  uid : nat;
  name : string;
  worldPosition : Vector3.t;
  zoomOffset : Vector3.t;
  targetYOffset : Q
}.
Definition same (a b : t) : bool := Nat.eqb (uid a) (uid b).
End Object3D.

Module OutlinePass.
Record t := mk {
  visibleEdgeColor : Color.t;
  hiddenEdgeColor : Color.t;
  edgeStrength : Q;
  edgeGlow : Q;
  edgeThickness : Q;
  pulsePeriod : Q;
  enabled : bool;
  overlayMaterial : Overlay.ShaderMaterial;
  selectedObjects : list Object3D.t
}.

Definition set_edgeStrength (v : Q) (p : t) : t :=
  mk (visibleEdgeColor p) (hiddenEdgeColor p) v (edgeGlow p) (edgeThickness p)
     (pulsePeriod p) (enabled p) (overlayMaterial p) (selectedObjects p).
Definition set_enabled (e : bool) (p : t) : t :=
  mk (visibleEdgeColor p) (hiddenEdgeColor p) (edgeStrength p) (edgeGlow p)
     (edgeThickness p) (pulsePeriod p) e (overlayMaterial p) (selectedObjects p).
Definition set_selectedObjects (l : list Object3D.t) (p : t) : t :=
  mk (visibleEdgeColor p) (hiddenEdgeColor p) (edgeStrength p) (edgeGlow p)
     (edgeThickness p) (pulsePeriod p) (enabled p) (overlayMaterial p) l.
End OutlinePass.

Module SceneManager.
(** Which post-processing classes the page loaded onto [THREE]. *)
Record addons := mkAddons {
  hasEffectComposer : bool;
  hasRenderPass : bool;
  hasUnrealBloomPass : bool;
  hasOutlinePass : bool
}.

Inductive pass :=
| RenderPass
| UnrealBloomPass (strength radius threshold : Q)
| Outline.

Record t := mk {
  composer : option (list pass);
  bloomPass : option pass;
  outlinePass : option OutlinePass.t
}.

Definition new : t := mk None None None.

(** The outline pass as [setupPostProcessing] configures it. *)
Definition configuredOutlinePass : OutlinePass.t :=
  {| OutlinePass.visibleEdgeColor := Color.setHex 0xff3333;
     OutlinePass.hiddenEdgeColor := Color.setHex 0xff3333;
     OutlinePass.edgeStrength := 2.0;
     OutlinePass.edgeGlow := 0.3;
     OutlinePass.edgeThickness := 1.0;
     OutlinePass.pulsePeriod := 3.0;
     OutlinePass.enabled := false;
     OutlinePass.overlayMaterial := Overlay.replacement;
     OutlinePass.selectedObjects := [] |}.

Definition setupPostProcessing (three : addons) (sm : t) : t :=
  if negb (hasEffectComposer three) || negb (hasRenderPass three)
     || negb (hasUnrealBloomPass three)
  then sm
  else
    let bloom := UnrealBloomPass 0.3 0.5 0.8 in
    if hasOutlinePass three then
      mk (Some [RenderPass; bloom; Outline]) (Some bloom) (Some configuredOutlinePass)
    else
      mk (Some [RenderPass; bloom]) (Some bloom) (outlinePass sm).

Definition getOutlinePass (sm : t) : option OutlinePass.t := outlinePass sm.
End SceneManager.

(** ** The interaction manager: zoom, idle timer and hint glow

    The manager runs inside two hosts: the browser's timer table
    ([setTimeout]/[clearTimeout]) and the GSAP 3 ticker.  [gsap.to] registers
    a tween; GSAP 3 does not overwrite: tweens of one property registered
    earlier keep running, and on every tick the live tweens render in the
    order they were registered.  A tween reads its start values when it
    first renders. *)

Module Interaction.
Definition TimerId : Type := positive.

(** The closures handed to [setTimeout]. *)
Inductive handler := ShowHint.
Record timer := mkTimer { delay : Z; callback : handler }.

Inductive ease := Power1Out | Power1In | Power2InOut.

Definition easeAt (e : ease) (p : Q) : Q :=
  match e with
  | Power1Out => 1 - (1 - p) * (1 - p)
  | Power1In => p * p
  | Power2InOut =>
      if Qlt_bool p 0.5 then (2 * p) * (2 * p) * (2 * p) / 2
      else 1 - (2 * (1 - p)) * (2 * (1 - p)) * (2 * (1 - p)) / 2
  end.

(** The animated properties: [outlinePass.edgeStrength], [camera.position]
    and [controls.target]. *)
Inductive prop :=
| EdgeStrength
| CameraX | CameraY | CameraZ
| TargetX | TargetY | TargetZ.

(** The [onComplete] closures. *)
Inductive completion := NoCallback | HideHintComplete | ResetComplete.

Record tween := mkTween {
  vars : list (prop * Q);          (* property and end value *)
  from : option (list Q);          (* start values, once rendered *)
  duration : Q;
  easing : ease;
  onComplete : completion;
  time : Q                         (* seconds played *)
}.

Record t := mk {
  camera_position : Vector3.t;
  controls_target : Vector3.t;
  controls_enabled : bool;
  currentZoomedObject : option Object3D.t;
  originalCameraPosition : Vector3.t;
  originalControlsTarget : Vector3.t;
  outlinePass : option OutlinePass.t;
  hintActive : bool;
  hintTimer : option TimerId;
  timers : gmap positive timer;    (* the browser's pending timers *)
  nextTimer : positive;            (* the id [setTimeout] returns next *)
  tweens : list tween              (* GSAP's live tweens, oldest first *)
}.

Definition HINT_DELAY : Z := 5000.
Definition zoomDuration : Q := 1.5.
Definition zoomEase : ease := Power2InOut.

(** The constructor, for a camera and controls already placed. *)
Definition new (camera_position controls_target : Vector3.t) : t :=
  {| camera_position := camera_position;
     controls_target := controls_target;
     controls_enabled := true;
     currentZoomedObject := None;
     originalCameraPosition := Vector3.mk 0 3 5;
     originalControlsTarget := Vector3.mk 0 0 0;
     outlinePass := None;
     hintActive := false;
     hintTimer := None;
     timers := ∅;
     nextTimer := 1%positive;
     tweens := [] |}.

Definition set_camera_position v w :=
  mk v (controls_target w) (controls_enabled w) (currentZoomedObject w)
     (originalCameraPosition w) (originalControlsTarget w) (outlinePass w)
     (hintActive w) (hintTimer w) (timers w) (nextTimer w) (tweens w).
Definition set_controls_target v w :=
  mk (camera_position w) v (controls_enabled w) (currentZoomedObject w)
     (originalCameraPosition w) (originalControlsTarget w) (outlinePass w)
     (hintActive w) (hintTimer w) (timers w) (nextTimer w) (tweens w).
Definition set_zoom (enabled : bool) (zoomed : option Object3D.t) w :=
  mk (camera_position w) (controls_target w) enabled zoomed
     (originalCameraPosition w) (originalControlsTarget w) (outlinePass w)
     (hintActive w) (hintTimer w) (timers w) (nextTimer w) (tweens w).
Definition set_originals (c g : Vector3.t) w :=
  mk (camera_position w) (controls_target w) (controls_enabled w)
     (currentZoomedObject w) c g (outlinePass w)
     (hintActive w) (hintTimer w) (timers w) (nextTimer w) (tweens w).
Definition set_outlinePass (p : option OutlinePass.t) w :=
  mk (camera_position w) (controls_target w) (controls_enabled w)
     (currentZoomedObject w) (originalCameraPosition w)
     (originalControlsTarget w) p
     (hintActive w) (hintTimer w) (timers w) (nextTimer w) (tweens w).
Definition set_hintActive (a : bool) w :=
  mk (camera_position w) (controls_target w) (controls_enabled w)
     (currentZoomedObject w) (originalCameraPosition w)
     (originalControlsTarget w) (outlinePass w)
     a (hintTimer w) (timers w) (nextTimer w) (tweens w).
Definition set_timers (h : option TimerId) (tm : gmap positive timer)
           (next : positive) w :=
  mk (camera_position w) (controls_target w) (controls_enabled w)
     (currentZoomedObject w) (originalCameraPosition w)
     (originalControlsTarget w) (outlinePass w)
     (hintActive w) h tm next (tweens w).
Definition set_tweens (l : list tween) w :=
  mk (camera_position w) (controls_target w) (controls_enabled w)
     (currentZoomedObject w) (originalCameraPosition w)
     (originalControlsTarget w) (outlinePass w)
     (hintActive w) (hintTimer w) (timers w) (nextTimer w) l.

(** [gsap.to(target, vars)]. *)
Definition gsap_to (vars : list (prop * Q)) (duration : Q) (e : ease)
           (done : completion) (w : t) : t :=
  set_tweens (tweens w ++ [mkTween vars None duration e done 0]) w.

(** [clearTimeout] and [setTimeout] of the browser. *)
Definition clearTimeout (id : TimerId) (w : t) : t :=
  set_timers (hintTimer w) (delete id (timers w)) (nextTimer w) w.
Definition setTimeout (h : handler) (ms : Z) (w : t) : TimerId * t :=
  let id := nextTimer w in
  (id, set_timers (hintTimer w) (<[id := mkTimer ms h]> (timers w)) (Pos.succ id) w).

(** [startHintTimer]. *)
Definition startHintTimer (w : t) : t :=
  let w1 := match hintTimer w with
            | Some id => clearTimeout id w
            | None => w
            end in
  let '(id, w2) := setTimeout ShowHint HINT_DELAY w1 in
  set_timers (Some id) (timers w2) (nextTimer w2) w2.

(** [setOutlinePass]. *)
Definition setOutlinePass (pass : OutlinePass.t) (interactiveObjects : list Object3D.t)
           (w : t) : t :=
  startHintTimer
    (set_outlinePass (Some (OutlinePass.set_selectedObjects interactiveObjects pass)) w).

(** [showHint]. *)
Definition showHint (w : t) : t :=
  match outlinePass w, currentZoomedObject w with
  | Some pass, None =>
      let pass' := OutlinePass.set_enabled true (OutlinePass.set_edgeStrength 0 pass) in
      gsap_to [(EdgeStrength, 2.0)] 2.0 Power1Out NoCallback
              (set_outlinePass (Some pass') (set_hintActive true w))
  | _, _ => w
  end.

(** [hideHint]. *)
Definition hideHint (w : t) : t :=
  match outlinePass w, hintActive w with
  | Some _, true => gsap_to [(EdgeStrength, 0)] 1.0 Power1In HideHintComplete w
  | _, _ => w
  end.

(** [zoomToObject]. *)
Definition zoomToObject (object : Object3D.t) (w : t) : t :=
  let w1 := set_zoom false (Some object) w in
  let w2 := set_originals (camera_position w1) (controls_target w1) w1 in
  let objectPosition := Object3D.worldPosition object in
  let offset := Object3D.zoomOffset object in
  let w3 :=
    gsap_to [ (CameraX, Vector3.x objectPosition + Vector3.x offset);
              (CameraY, Vector3.y objectPosition + Vector3.y offset);
              (CameraZ, Vector3.z objectPosition + Vector3.z offset) ]
            zoomDuration zoomEase NoCallback w2 in
  gsap_to [ (TargetX, Vector3.x objectPosition);
            (TargetY, Vector3.y objectPosition + Object3D.targetYOffset object);
            (TargetZ, Vector3.z objectPosition) ]
          zoomDuration zoomEase NoCallback w3.

(** [resetCamera]. *)
Definition resetCamera (w : t) : t :=
  match currentZoomedObject w with
  | Some _ =>
      let c := originalCameraPosition w in
      let g := originalControlsTarget w in
      let w1 :=
        gsap_to [ (CameraX, Vector3.x c); (CameraY, Vector3.y c); (CameraZ, Vector3.z c) ]
                zoomDuration zoomEase NoCallback w in
      gsap_to [ (TargetX, Vector3.x g); (TargetY, Vector3.y g); (TargetZ, Vector3.z g) ]
              zoomDuration zoomEase ResetComplete w1
  | None => w
  end.

(** [onMouseClick], past the guard against the click that follows a tap;
    [hit] is the interactive root under the pointer, if the ray met one. *)
Definition onMouseClick (hit : option Object3D.t) (w : t) : t :=
  match hit with
  | Some clickedObject =>
      let w1 := hideHint w in
      let w2 := startHintTimer w1 in
      match currentZoomedObject w2 with
      | Some zoomed =>
          if Object3D.same clickedObject zoomed then resetCamera w2
          else zoomToObject clickedObject w2
      | None => zoomToObject clickedObject w2
      end
  | None =>
      match currentZoomedObject w with
      | Some _ => resetCamera w
      | None => w
      end
  end.

(** The [keydown] listener. *)
Definition onEscape (w : t) : t :=
  match currentZoomedObject w with
  | Some _ => resetCamera w
  | None => w
  end.

(** The bodies of the [onComplete] closures. *)
Definition complete (c : completion) (w : t) : t :=
  match c with
  | NoCallback => w
  | HideHintComplete =>
      set_hintActive false
        (set_outlinePass (OutlinePass.set_enabled false <$> outlinePass w) w)
  | ResetComplete => startHintTimer (set_zoom true None w)
  end.

Definition getProp (p : prop) (w : t) : Q :=
  match p with
  | EdgeStrength => default 0 (OutlinePass.edgeStrength <$> outlinePass w)
  | CameraX => Vector3.x (camera_position w)
  | CameraY => Vector3.y (camera_position w)
  | CameraZ => Vector3.z (camera_position w)
  | TargetX => Vector3.x (controls_target w)
  | TargetY => Vector3.y (controls_target w)
  | TargetZ => Vector3.z (controls_target w)
  end.

Definition setProp (p : prop) (v : Q) (w : t) : t :=
  let c := camera_position w in
  let g := controls_target w in
  match p with
  | EdgeStrength => set_outlinePass (OutlinePass.set_edgeStrength v <$> outlinePass w) w
  | CameraX => set_camera_position (Vector3.mk v (Vector3.y c) (Vector3.z c)) w
  | CameraY => set_camera_position (Vector3.mk (Vector3.x c) v (Vector3.z c)) w
  | CameraZ => set_camera_position (Vector3.mk (Vector3.x c) (Vector3.y c) v) w
  | TargetX => set_controls_target (Vector3.mk v (Vector3.y g) (Vector3.z g)) w
  | TargetY => set_controls_target (Vector3.mk (Vector3.x g) v (Vector3.z g)) w
  | TargetZ => set_controls_target (Vector3.mk (Vector3.x g) (Vector3.y g) v) w
  end.

(** Writing the properties of one tween at eased progress [ratio];
    a finished tween writes its end values. *)
Fixpoint writeProps (finished : bool) (ratio : Q) (vars : list (prop * Q))
         (starts : list Q) (w : t) : t :=
  match vars, starts with
  | (p, e) :: vars', s :: starts' =>
      let v := if finished then e else s + (e - s) * ratio in
      writeProps finished ratio vars' starts' (setProp p v w)
  | _, _ => w
  end.

(** One tween on one tick of [dt] seconds: the tween, if it lives on, and
    the state after its writes and its [onComplete]. *)
Definition renderTween (dt : Q) (tw : tween) (w : t) : option tween * t :=
  let starts :=
    match from tw with
    | Some l => l
    | None => map (fun pe => getProp (fst pe) w) (vars tw)
    end in
  let now := time tw + dt in
  if Qle_bool (duration tw) now then
    (None, complete (onComplete tw) (writeProps true 1 (vars tw) starts w))
  else
    let ratio := easeAt (easing tw) (now / duration tw) in
    (Some (mkTween (vars tw) (Some starts) (duration tw) (easing tw)
                   (onComplete tw) now),
     writeProps false ratio (vars tw) starts w).

Fixpoint renderAll (dt : Q) (tws : list tween) (w : t) : list tween * t :=
  match tws with
  | [] => ([], w)
  | tw :: rest =>
      let '(kept, w1) := renderTween dt tw w in
      let '(live, w2) := renderAll dt rest w1 in
      (match kept with Some tw' => tw' :: live | None => live end, w2)
  end.

(** One tick of the GSAP ticker. *)
Definition tick (dt : Q) (w : t) : t :=
  let '(live, w1) := renderAll dt (tweens w) (set_tweens [] w) in
  set_tweens (live ++ tweens w1) w1.

(** A pending timer comes due: the browser drops it and runs its closure. *)
Definition fireTimer (id : TimerId) (w : t) : t :=
  match timers w !! id with
  | Some tm =>
      let w1 := set_timers (hintTimer w) (delete id (timers w)) (nextTimer w) w in
      match callback tm with
      | ShowHint => showHint w1
      end
  | None => w
  end.

(** What can happen to the manager. *)
Inductive event :=
| Wire (pass : OutlinePass.t) (interactiveObjects : list Object3D.t)
| Click (hit : option Object3D.t)
| Escape
| TimerDue (id : TimerId)
| Tick (dt : Q).

Definition handle (w : t) (e : event) : t :=
  match e with
  | Wire pass objs => setOutlinePass pass objs w
  | Click hit => onMouseClick hit w
  | Escape => onEscape w
  | TimerDue id => fireTimer id w
  | Tick dt => tick dt w
  end.

Definition run (w : t) (es : list event) : t := fold_left handle es w.

(** The tweens that animate a given property. *)
Definition animates (p : prop) (tw : tween) : bool :=
  existsb (fun pe => match fst pe, p with
                     | EdgeStrength, EdgeStrength
                     | CameraX, CameraX | CameraY, CameraY | CameraZ, CameraZ
                     | TargetX, TargetX | TargetY, TargetY | TargetZ, TargetZ => true
                     | _, _ => false
                     end) (vars tw).

Definition tweensOf (p : prop) (w : t) : list tween :=
  List.filter (animates p) (tweens w).


(** A tween that neither animates [edgeStrength] nor ends the hint. *)
Definition leavesHint (tw : tween) : Prop :=
  animates EdgeStrength tw = false /\ onComplete tw <> HideHintComplete.


Definition sameHint (w w' : t) : Prop :=
  outlinePass w' = outlinePass w /\ hintActive w' = hintActive w /\ tweens w' = tweens w.





(** A session: the pass is wired, the idle timer comes due, and the
    fade-in has played for half a second. *)
Definition mug : Object3D.t :=
  Object3D.mk 7 "coffee" (Vector3.mk 1 1 0) (Vector3.mk 0 0 1.5) 0.

Definition midFadeIn : t :=
  run (new (Vector3.mk 0 3 5) (Vector3.mk 0 2 0))
      [ Wire SceneManager.configuredOutlinePass [mug]; TimerDue 1%positive; Tick 0.5 ].
End Interaction.

(** ** The lighting system as its callers drive it *)

Module LightingCalls.
Import LightingSystem.


(** [getEnvironmentMap]. *)
Definition getEnvironmentMap (s : t) : option EnvMap.t := envMap s.

(** The calls the scene manager, the factories and the frame loop make. *)
Inductive call :=
| Init
| AddEmissiveLight (light : Light.t)
| CreateGlareMaterial (options : Options.t)
| UpdateGlare (cameraPosition : Vector3.t)
| UpdateDayNightCycle (now : Date.t)
| Update (now : Date.t) (cameraPosition : Vector3.t).

Definition perform (c : call) (s : t) : outcome t :=
  match c with
  | Init => init s
  | AddEmissiveLight light => Done (addEmissiveLight light s)
  | CreateGlareMaterial options => Done (snd (createGlareMaterial options s))
  | UpdateGlare cameraPosition => Done (updateGlare cameraPosition s)
  | UpdateDayNightCycle now => updateDayNightCycle now s
  | Update now cameraPosition => update now cameraPosition s
  end.

(** A sequence of calls; an exception ends it. *)
Fixpoint performAll (cs : list call) (s : t) : outcome t :=
  match cs with
  | [] => Done s
  | c :: rest => s1 ← perform c s; performAll rest s1
  end.

(** The clock hands the update a time of day. *)
Definition validCall (c : call) : Prop :=
  match c with
  | UpdateDayNightCycle now | Update now _ => Date.valid now
  | _ => True
  end.

Definition createsMaterial (c : call) : bool :=
  match c with CreateGlareMaterial _ => true | _ => false end.

(** What holds of the lighting system once [init] has run. *)
Definition ready (s : t) : Prop :=
  dayNightKeyframes s = dayNightKeyframes new /\
  is_Some (Lights.ambient (lights s)) /\
  is_Some (Lights.hemisphere (lights s)) /\
  is_Some (Lights.main (lights s)) /\
  is_Some (Lights.fill (lights s)) /\
  is_Some (Lights.rim (lights s)) /\
  is_Some (envMap s) /\
  Forall Glare.wf (glareMaterials s).

(** A channel value a colour can hold. *)
Definition unit (q : Q) : Prop := 0 <= q /\ q <= 1.
End LightingCalls.

(** ** The application entry point and the manager's other states *)

Module Portfolio3D.
Import Interaction.

(** [Portfolio3D.init], the wiring of the hint: the outline pass goes to the
    interaction manager only if the scene manager has one. *)
Definition wireHint (sm : SceneManager.t) (interactiveObjects : list Object3D.t)
           (w : t) : t :=
  match SceneManager.getOutlinePass sm with
  | Some outlinePass => setOutlinePass outlinePass interactiveObjects w
  | None => w
  end.

(** What the user and the two hosts do after the wiring. *)
Definition afterWiring (e : event) : Prop :=
  match e with
  | Wire _ _ => False
  | _ => True
  end.

(** The wired pass is the one handed over, but for [edgeStrength] and for
    [enabled], which follows [hintActive]. *)
Definition passInv (pass : OutlinePass.t) (objs : list Object3D.t) (w : t) : Prop :=
  exists q,
    outlinePass w = Some q /\
    OutlinePass.enabled q = hintActive w /\
    OutlinePass.selectedObjects q = objs /\
    OutlinePass.overlayMaterial q = OutlinePass.overlayMaterial pass /\
    OutlinePass.edgeGlow q = OutlinePass.edgeGlow pass /\
    OutlinePass.visibleEdgeColor q = OutlinePass.visibleEdgeColor pass.

(** No pass, no hint. *)
Definition unwired (w : t) : Prop :=
  outlinePass w = None /\ hintActive w = false /\ Forall leavesHint (tweens w).












(** The orbit controls are on exactly when nothing is zoomed. *)
Definition controlsFollowZoom (w : t) : Prop :=
  controls_enabled w
  = match currentZoomedObject w with None => true | Some _ => false end.

End Portfolio3D.

(** ** Hover light, monitor scroll and text wrapping *)

Module Hover.
(** What the ray from the pointer meets: nothing, or a mesh at [point]
    whose interactive ancestor is [root] ([null] when the climb through the
    parents finds none). *)
Inductive ray :=
| Miss
| Hit (root : option Object3D.t) (point : Vector3.t).

Record t := mk {
  mouse : Q * Q;
  intensity : Q;                     (* hoverLight.intensity *)
  visible : bool;                    (* hoverLight.visible *)
  position : Vector3.t;              (* hoverLight.position *)
  inScene : bool;                    (* hoverLight.parent is set *)
  hasScene : bool;                   (* the manager was given a scene *)
  hoveredObject : option Object3D.t;
  cursor : string                    (* document.body.style.cursor *)
}.

(** The constructor with [createHoverLight]: a point light of intensity 0,
    hidden and not yet in the scene. *)
Definition new (scene : bool) : t :=
  {| mouse := (0, 0); intensity := 0; visible := false; position := Vector3.zero;
     inScene := false; hasScene := scene; hoveredObject := None; cursor := "" |}.

Definition max (a b : Q) : Q := if Qlt_bool a b then b else a.
Definition min (a b : Q) : Q := if Qlt_bool b a then b else a.

(** [updateHoverLight(object, point)]. *)
Definition updateHoverLight (object : Object3D.t) (point : Vector3.t) (h : t) : t :=
  {| mouse := mouse h;
     intensity := min 1.0 (intensity h + 0.1);
     visible := visible h;
     position := Vector3.mk (Vector3.x point) (Vector3.y point + 0.3) (Vector3.z point);
     inScene := inScene h || hasScene h;
     hasScene := hasScene h;
     hoveredObject := Some object;
     cursor := cursor h |}.

(** [hideHoverLight]. *)
Definition hideHoverLight (h : t) : t :=
  if Qlt_bool 0 (intensity h) then
    let i := max 0 (intensity h - 0.1) in
    if Qeq_bool i 0 then
      mk (mouse h) i false (position h) (inScene h) (hasScene h) None (cursor h)
    else
      mk (mouse h) i (visible h) (position h) (inScene h) (hasScene h)
         (hoveredObject h) (cursor h)
  else h.

Definition set_cursor (c : string) (h : t) : t :=
  mk (mouse h) (intensity h) (visible h) (position h) (inScene h) (hasScene h)
     (hoveredObject h) c.

(** [onMouseMove(event)] in a window of the given inner size; [zoomed]
    tells whether the manager holds a zoomed object. *)
Definition onMouseMove (clientX clientY innerWidth innerHeight : Q) (zoomed : bool)
           (r : ray) (h : t) : outcome t :=
  if Qeq_bool innerWidth 0 || Qeq_bool innerHeight 0 then NonFinite
  else
    let h1 := mk ((clientX / innerWidth) * 2 - 1, - (clientY / innerHeight) * 2 + 1)
                 (intensity h) (visible h) (position h) (inScene h) (hasScene h)
                 (hoveredObject h) (cursor h) in
    if zoomed then Done h1
    else
      match r with
      | Hit (Some object) point =>
          Done (updateHoverLight object point (set_cursor "pointer" h1))
      | Hit None _ => Done h1
      | Miss => Done (hideHoverLight (set_cursor "default" h1))
      end.

(** One pointer move, as the browser reports it. *)
Record move := mkMove {
  clientX : Q; clientY : Q; innerWidth : Q; innerHeight : Q;
  zoomed : bool; target : ray
}.

Definition handleMove (m : move) (h : t) : outcome t :=
  onMouseMove (clientX m) (clientY m) (innerWidth m) (innerHeight m)
              (zoomed m) (target m) h.

Fixpoint moves (ms : list move) (h : t) : outcome t :=
  match ms with
  | [] => Done h
  | m :: rest => h1 ← handleMove m h; moves rest h1
  end.

(** The window has a size. *)
Definition sized (m : move) : Prop := ~ innerWidth m == 0 /\ ~ innerHeight m == 0.

(** The pointer leaves the objects, unzoomed, in a window that has a size. *)
Definition leaving (m : move) : Prop :=
  zoomed m = false /\ target m = Miss /\ ~ innerWidth m == 0 /\ ~ innerHeight m == 0.

(** The pointer is over a mesh of the interactive object [o], unzoomed. *)
Definition pointing (o : Object3D.t) (point : Vector3.t) (m : move) : Prop :=
  zoomed m = false /\ target m = Hit (Some o) point /\
  ~ innerWidth m == 0 /\ ~ innerHeight m == 0.

Definition inv (h : t) : Prop :=
  0 <= intensity h /\ intensity h <= 1 /\ visible h = false /\
  (is_Some (hoveredObject h) -> 0 < intensity h).

(** Two moves in an 800 by 600 window: over the coffee mug, and over
    nothing. *)
Definition overMug : move :=
  mkMove 400 300 800 600 false (Hit (Some Interaction.mug) (Vector3.mk 1 1 0)).
Definition overNothing : move := mkMove 10 10 800 600 false Miss.
End Hover.

Module Scroll.
(** The scroll state of the manager; the canvas texture that
    [updateMonitorTexture] redraws from it is outside the record. *)
Record t := mk {
  monitorScrollOffset : Q;
  monitorMesh : option Object3D.t
}.

Definition new : t := mk 0 None.

Definition isMonitor (o : Object3D.t) : bool := String.eqb (Object3D.name o) "monitor".

(** [onMouseWheel(event)]: the new state and whether [preventDefault] was
    called.  [zoomed] is the manager's [currentZoomedObject], [under] the
    interactive root under the pointer. *)
Definition onMouseWheel (deltaY : Q) (zoomed under : option Object3D.t) (s : t)
  : t * bool :=
  let '(shouldScroll, s1) :=
    match zoomed with
    | Some z => (isMonitor z, s)
    | None =>
        match under with
        | Some o =>
            if isMonitor o then (true, mk (monitorScrollOffset s) (Some o))
            else (false, s)
        | None => (false, s)
        end
    end in
  if shouldScroll then
    let offset := monitorScrollOffset s1 + deltaY * 0.5 in
    let offset := Hover.max 0 (Hover.min offset 2000) in
    (mk offset (monitorMesh s1), true)
  else (s1, false).

(** What [zoomToObject] does to the scroll state. *)
Definition onZoom (o : Object3D.t) (s : t) : t :=
  if isMonitor o then mk (monitorScrollOffset s) (Some o) else s.

Inductive event :=
| Wheel (deltaY : Q) (zoomed under : option Object3D.t)
| Zoom (o : Object3D.t).

Definition handle (s : t) (e : event) : t :=
  match e with
  | Wheel deltaY zoomed under => fst (onMouseWheel deltaY zoomed under s)
  | Zoom o => onZoom o s
  end.

Definition run (s : t) (es : list event) : t := fold_left handle es s.

Definition inv (s : t) : Prop :=
  0 <= monitorScrollOffset s /\ monitorScrollOffset s <= 2000 /\
  forall o, monitorMesh s = Some o -> isMonitor o = true.
End Scroll.

Module Text.
(** The calls [ctx.fillText(line, x, y)] a drawing makes, in order. *)
Definition fillText : Type := string * Q * Q.

(** [text.split(' ')]. *)
Fixpoint split (text : string) : list string :=
  match text with
  | EmptyString => [EmptyString]
  | String c rest =>
      if Ascii.eqb c (Ascii.ascii_of_nat 32) then EmptyString :: split rest
      else
        match split rest with
        | w :: ws => String c w :: ws
        | [] => [String c EmptyString]
        end
  end.

Definition nonEmpty (s : string) : bool :=
  match s with EmptyString => false | _ => true end.

(** The loop of [wrapText] over the words still to place; [measure] is
    [ctx.measureText(_).width]. *)
Fixpoint wrapWords (measure : string -> Q) (x maxWidth lineHeight : Q)
         (words : list string) (line : string) (currentY : Q)
  : list fillText * string * Q :=
  match words with
  | [] => ([], line, currentY)
  | word :: rest =>
      let testLine := ((line ++ word) ++ " ")%string in
      if Qlt_bool maxWidth (measure testLine) && nonEmpty line then
        let '(calls, line', y') :=
          wrapWords measure x maxWidth lineHeight rest (word ++ " ")%string
                    (currentY + lineHeight) in
        ((line, x, currentY) :: calls, line', y')
      else wrapWords measure x maxWidth lineHeight rest testLine currentY
  end.

(** [wrapText(ctx, text, x, y, maxWidth, lineHeight)]: the [fillText] calls
    it makes and the value it returns. *)
Definition wrapText (measure : string -> Q) (text : string) (x y maxWidth lineHeight : Q)
  : list fillText * Q :=
  let '(calls, line, currentY) :=
    wrapWords measure x maxWidth lineHeight (split text) EmptyString y in
  (calls ++ [(line, x, currentY)], currentY + lineHeight).

Definition lineOf (c : fillText) : string := fst (fst c).

(** The lines of a drawing put end to end. *)
Definition joined (lines : list string) : string :=
  fold_right String.append EmptyString lines.

(** A line fits the width allowed, or it is one word of [all] with its
    space. *)
Definition fits (measure : string -> Q) (maxWidth : Q) (all : list string)
           (line : string) : Prop :=
  measure line <= maxWidth \/ exists w, In w all /\ line = (w ++ " ")%string.

(** A string without a space. *)
Fixpoint spaceFree (s : string) : bool :=
  match s with
  | EmptyString => true
  | String c rest => negb (Ascii.eqb c (Ascii.ascii_of_nat 32)) && spaceFree rest
  end.
End Text.

(** * Properties *)

(** ** Comparisons on rationals *)

Lemma Qlt_bool_iff (a b : Q) : Qlt_bool a b = true <-> a < b.
Proof.
  unfold Qlt_bool. rewrite negb_true_iff. split.
  - intros H. apply Qnot_le_lt. intros Hle.
    apply Qle_bool_iff in Hle. congruence.
  - intros H. destruct (Qle_bool b a) eqn:E; [|reflexivity].
    apply Qle_bool_iff in E. exfalso. apply (Qlt_not_le _ _ H E).
Qed.

Lemma Qeq_bool_false (a b : Q) : Qeq_bool a b = false <-> ~ a == b.
Proof.
  split.
  - intros H Heq. apply Qeq_bool_iff in Heq. congruence.
  - intros H. destruct (Qeq_bool a b) eqn:E; [|reflexivity].
    apply Qeq_bool_iff in E. contradiction.
Qed.

(** ** The scan of the keyframe table *)

Section Scan.
Import LightingSystem.
Variable kfs : list Keyframe.t.
Variable hour : Q.

Lemma brackets_iff (a b : Keyframe.t) :
  brackets hour a b = true <-> Keyframe.hour a <= hour /\ hour < Keyframe.hour b.
Proof.
  unfold brackets. rewrite andb_true_iff, Qle_bool_iff, Qlt_bool_iff. tauto.
Qed.

(** A table whose ends enclose [hour] has a bracketing pair, and the loop
    stops at one. *)
Lemma scanFrom_encloses (n i : nat) (a z : Keyframe.t) :
  kfs !! i = Some a -> kfs !! (i + n)%nat = Some z ->
  Keyframe.hour a <= hour -> hour < Keyframe.hour z ->
  exists a' b', scanFrom kfs hour i n = Some (a', b') /\ brackets hour a' b' = true.
Proof.
  revert i a. induction n as [|n IH]; intros i a Ha Hz Hle Hlt.
  - rewrite Nat.add_0_r in Hz. rewrite Ha in Hz. injection Hz as ->.
    qlra.
  - assert (Hb : is_Some (kfs !! S i)).
    { apply lookup_lt_is_Some. apply lookup_lt_Some in Hz. lia. }
    destruct Hb as [b Hb]. simpl. rewrite Ha, Hb.
    destruct (brackets hour a b) eqn:E.
    + exists a, b. split; [reflexivity | exact E].
    + apply (IH (S i) b); auto.
      * replace (S i + n)%nat with (i + S n)%nat by lia. exact Hz.
      * destruct (Qlt_le_dec hour (Keyframe.hour b)) as [Hlt'|Hge]; [|exact Hge].
        exfalso. assert (brackets hour a b = true) by (apply brackets_iff; split; auto).
        congruence.
Qed.

(** Whatever the loop returns is an adjacent pair that brackets [hour]. *)
Lemma scanFrom_sound (n i : nat) (a b : Keyframe.t) :
  scanFrom kfs hour i n = Some (a, b) ->
  exists j, (i <= j < i + n)%nat /\ kfs !! j = Some a /\ kfs !! S j = Some b
            /\ brackets hour a b = true.
Proof.
  revert i. induction n as [|n IH]; intros i H; simpl in H; [discriminate|].
  destruct (kfs !! i) as [a'|] eqn:Ha; [|discriminate].
  destruct (kfs !! S i) as [b'|] eqn:Hb; [|discriminate].
  destruct (brackets hour a' b') eqn:E.
  - injection H as -> ->. exists i. repeat split; auto; lia.
  - destruct (IH _ H) as (j & Hj & H1 & H2 & H3).
    exists j. repeat split; auto; lia.
Qed.

Hypothesis sorted : strictlyIncreasing kfs = true.

Lemma strictlyIncreasing_adjacent (i : nat) (a b : Keyframe.t) :
  kfs !! i = Some a -> kfs !! S i = Some b -> Keyframe.hour a < Keyframe.hour b.
Proof.
  clear hour. revert sorted i. generalize kfs as l.
  induction l as [|k l IH]; intros Hs i Ha Hb; [discriminate|].
  destruct l as [|k' l']; [destruct i; discriminate|].
  simpl in Hs. apply andb_true_iff in Hs as [H1 H2].
  destruct i as [|i].
  - simpl in Ha, Hb. injection Ha as ->. injection Hb as ->.
    now apply Qlt_bool_iff.
  - apply (IH H2 i); assumption.
Qed.

Lemma strictlyIncreasing_mono (d i : nat) (a b : Keyframe.t) :
  kfs !! i = Some a -> kfs !! (i + d)%nat = Some b ->
  Keyframe.hour a <= Keyframe.hour b.
Proof.
  revert b. induction d as [|d IH]; intros b Ha Hb.
  - rewrite Nat.add_0_r in Hb. rewrite Ha in Hb. injection Hb as ->. apply Qle_refl.
  - assert (Hc : is_Some (kfs !! (i + d)%nat)).
    { apply lookup_lt_is_Some. apply lookup_lt_Some in Hb. lia. }
    destruct Hc as [c Hc].
    apply Qle_trans with (Keyframe.hour c); [apply IH; assumption|].
    apply Qlt_le_weak. apply (strictlyIncreasing_adjacent (i + d)); [assumption|].
    replace (S (i + d)) with (i + S d)%nat by lia. exact Hb.
Qed.

(** In a sorted table the loop stops exactly at the pair that brackets
    [hour]. *)
Lemma scanFrom_finds (n i j : nat) (a b : Keyframe.t) :
  (i <= j < i + n)%nat ->
  kfs !! j = Some a -> kfs !! S j = Some b -> brackets hour a b = true ->
  scanFrom kfs hour i n = Some (a, b).
Proof.
  revert i. induction n as [|n IH]; intros i Hij Ha Hb Hbr; [lia|].
  simpl. destruct (Nat.eq_dec i j) as [->|Hne].
  - rewrite Ha, Hb, Hbr. reflexivity.
  - assert (Hi : is_Some (kfs !! i)).
    { apply lookup_lt_is_Some. apply lookup_lt_Some in Ha. lia. }
    assert (Hsi : is_Some (kfs !! S i)).
    { apply lookup_lt_is_Some. apply lookup_lt_Some in Ha. lia. }
    destruct Hi as [a' Ha'], Hsi as [b' Hb']. rewrite Ha', Hb'.
    destruct (brackets hour a' b') eqn:E.
    + exfalso. apply brackets_iff in E as [_ E]. apply brackets_iff in Hbr as [Hbr _].
      assert (Keyframe.hour b' <= Keyframe.hour a).
      { apply (strictlyIncreasing_mono (j - S i) (S i)); [assumption|].
        replace (S i + (j - S i))%nat with j by lia. exact Ha. }
      qlra.
    + apply IH; auto. lia.
Qed.
End Scan.

(** ** The day/night update *)

Section DayNight.
Import LightingSystem.

Lemma updateDayNightCycleAt_interval hour s sun a b :
  Lights.main (lights s) = Some sun ->
  findInterval (dayNightKeyframes s) hour = (Some a, Some b) ->
  ~ Keyframe.hour b - Keyframe.hour a == 0 ->
  updateDayNightCycleAt hour s = Done (interpolated hour a b sun s).
Proof.
  intros Hm Hf Hspan. unfold updateDayNightCycleAt. rewrite Hm, Hf.
  apply Qeq_bool_false in Hspan. rewrite Hspan. reflexivity.
Qed.

Lemma findInterval_bracket kfs hour i a b :
  strictlyIncreasing kfs = true ->
  kfs !! i = Some a -> kfs !! S i = Some b ->
  Keyframe.hour a <= hour -> hour < Keyframe.hour b ->
  findInterval kfs hour = (Some a, Some b).
Proof.
  intros Hs Ha Hb Hle Hlt. unfold findInterval.
  rewrite (scanFrom_finds kfs hour Hs (length kfs - 1) 0 i a b); auto.
  - apply lookup_lt_Some in Hb. lia.
  - apply brackets_iff. split; assumption.
Qed.

Lemma tableInvariant_ends kfs :
  tableInvariant kfs = true ->
  exists k0 kz, kfs !! 0%nat = Some k0 /\ kfs !! (length kfs - 1)%nat = Some kz
                /\ Keyframe.hour k0 == 0 /\ Keyframe.hour kz == 24.
Proof.
  unfold tableInvariant. intros H.
  apply andb_true_iff in H as [H Hz]. apply andb_true_iff in H as [_ H0].
  destruct (kfs !! 0%nat) as [k0|]; [|discriminate].
  destruct (kfs !! (length kfs - 1)%nat) as [kz|]; [|discriminate].
  exists k0, kz. repeat split; auto; now apply Qeq_bool_iff.
Qed.

Lemma findInterval_enclosed kfs hour :
  tableInvariant kfs = true -> 0 <= hour -> hour < 24 ->
  exists a b, findInterval kfs hour = (Some a, Some b)
              /\ Keyframe.hour a <= hour /\ hour < Keyframe.hour b.
Proof.
  intros Hinv H0 H24.
  destruct (tableInvariant_ends kfs Hinv) as (k0 & kz & Hk0 & Hkz & E0 & Ez).
  destruct (scanFrom_encloses kfs hour (length kfs - 1) 0 k0 kz) as (a & b & Hscan & Hbr);
    auto; try qlra.
  exists a, b. unfold findInterval. rewrite Hscan.
  apply brackets_iff in Hbr. tauto.
Qed.

Lemma hourOf_range now : Date.valid now -> 0 <= hourOf now /\ hourOf now < 24.
Proof.
  intros [Hh Hm]. unfold hourOf.
  assert (H1 : 0 <= inject_Z (Z.of_nat (Date.getHours now))).
  { change 0 with (inject_Z 0). rewrite <- Zle_Qle. lia. }
  assert (H2 : inject_Z (Z.of_nat (Date.getHours now)) <= 23).
  { change 23 with (inject_Z 23). rewrite <- Zle_Qle. lia. }
  assert (H3 : 0 <= inject_Z (Z.of_nat (Date.getMinutes now))).
  { change 0 with (inject_Z 0). rewrite <- Zle_Qle. lia. }
  assert (H4 : inject_Z (Z.of_nat (Date.getMinutes now)) <= 59).
  { change 59 with (inject_Z 59). rewrite <- Zle_Qle. lia. }
  set (h := inject_Z (Z.of_nat (Date.getHours now))) in *.
  set (m := inject_Z (Z.of_nat (Date.getMinutes now))) in *.
  assert (E : m / 60 == m * (1 # 60)) by (field; discriminate).
  rewrite E. split; qlra.
Qed.
End DayNight.

Section DayNightClaims.
Import LightingSystem.

(** C1.  For a wall-clock hour bracketed by the adjacent keyframes [ki] and
    [kj] of a sorted table, [updateDayNightCycle] gives the sun the
    intensity [ki.intensity + (kj.intensity - ki.intensity) * (t - ki.hour)
    / (kj.hour - ki.hour)] and, channel by channel, the colour
    [c_i + (c_j - c_i) * f] with the same factor [f]; at [t = ki.hour]
    these are the stored intensity and colour of [ki]; and on the rig as
    [init] builds it, at 06:00 the sun's intensity is 0.6. *)
Theorem sun_interpolates_between_keyframes :
  (forall s hour i ki kj sun,
      strictlyIncreasing (dayNightKeyframes s) = true ->
      dayNightKeyframes s !! i = Some ki ->
      dayNightKeyframes s !! S i = Some kj ->
      Keyframe.hour ki <= hour -> hour < Keyframe.hour kj ->
      Lights.main (lights s) = Some sun ->
      exists s' sun',
        updateDayNightCycleAt hour s = Done s' /\
        Lights.main (lights s') = Some sun' /\
        let f := (hour - Keyframe.hour ki) / (Keyframe.hour kj - Keyframe.hour ki) in
        let ci := Color.setHex (Keyframe.color ki) in
        let cj := Color.setHex (Keyframe.color kj) in
        Light.intensity sun'
        == Keyframe.intensity ki
           + (Keyframe.intensity kj - Keyframe.intensity ki)
             * (hour - Keyframe.hour ki) / (Keyframe.hour kj - Keyframe.hour ki) /\
        Color.r (Light.color sun') == Color.r ci + (Color.r cj - Color.r ci) * f /\
        Color.g (Light.color sun') == Color.g ci + (Color.g cj - Color.g ci) * f /\
        Color.b (Light.color sun') == Color.b ci + (Color.b cj - Color.b ci) * f /\
        (hour == Keyframe.hour ki ->
         Light.intensity sun' == Keyframe.intensity ki /\
         Color.equiv (Light.color sun') ci))
  /\
  (exists s0 s' sun',
      init new = Done s0 /\
      updateDayNightCycle (Date.mk 6 0) s0 = Done s' /\
      Lights.main (lights s') = Some sun' /\
      Light.intensity sun' == 0.6).
Proof.
  split.
  - intros s hour i ki kj sun Hs Hi Hj Hle Hlt Hm.
    assert (Hspan : ~ Keyframe.hour kj - Keyframe.hour ki == 0) by (intros E; qlra).
    exists (interpolated hour ki kj sun s). eexists. split; [|split; [reflexivity|]].
    + apply updateDayNightCycleAt_interval; auto.
      eapply findInterval_bracket; eauto.
    + cbn -[Color.setHex Qdiv]. repeat split; try reflexivity.
      * field. exact Hspan.
      * rewrite H. field. exact Hspan.
      * cbn -[Color.setHex Qdiv]. rewrite H. field. exact Hspan.
      * cbn -[Color.setHex Qdiv]. rewrite H. field. exact Hspan.
      * cbn -[Color.setHex Qdiv]. rewrite H. field. exact Hspan.
  - eexists. eexists. eexists. split; [reflexivity|].
    split; [vm_compute; reflexivity|]. split; [reflexivity|].
    vm_compute. reflexivity.
Qed.

Lemma sun_interpolates_between_keyframes_witness :
  exists s' sun',
    updateDayNightCycleAt 8.5 (setupLights new) = Done s' /\
    Lights.main (lights s') = Some sun' /\
    Light.intensity sun' == 1.
Proof.
  destruct sun_interpolates_between_keyframes as [H _].
  destruct (H (setupLights new) 8.5 2%nat
              (Keyframe.mk 7 0xffaa77 0.8) (Keyframe.mk 10 0xffeedd 1.2)
              (Light.mk (Color.setHex 0xffeedd) 0.22 (Vector3.mk (-5) 8 3)))
    as (s' & sun' & H1 & H2 & H3 & _);
    [ reflexivity | reflexivity | reflexivity
    | vm_compute; discriminate | vm_compute; reflexivity | reflexivity | ].
  exists s', sun'. split; [exact H1|]. split; [exact H2|].
  rewrite H3. vm_compute. reflexivity.
Defined.
Lemma Light_set_intensity_idem v l :
  Light.set_intensity v (Light.set_intensity v l) = Light.set_intensity v l.
Proof. reflexivity. Qed.

Lemma Glare_set_intensity_idem i v m :
  Glare.set_intensity i v (Glare.set_intensity i v m) = Glare.set_intensity i v m.
Proof.
  unfold Glare.set_intensity. cbn. rewrite list_insert_insert_eq. reflexivity.
Qed.

Lemma findInterval_cases kfs hour :
  (exists a b, findInterval kfs hour = (Some a, Some b))
  \/ (exists x, findInterval kfs hour = (None, x))
  \/ (exists x, findInterval kfs hour = (x, None)).
Proof.
  destruct (findInterval kfs hour) as [[a|] [b|]]; eauto.
Qed.

(** C7.  Running the day/night update twice at one instant leaves exactly
    the state one run leaves: sun colour and intensity, ambient and
    hemisphere intensity, every glare material's window slot, and all the
    rest of the lighting system. *)
Theorem day_night_update_idempotent :
  forall (now : Date.t) (s : t),
    (s1 ← updateDayNightCycle now s; updateDayNightCycle now s1)
    = updateDayNightCycle now s.
Proof.
  intros now s. unfold updateDayNightCycle. generalize (hourOf now) as hour. intros hour.
  destruct (Lights.main (lights s)) as [sun|] eqn:Hm.
  2:{ unfold updateDayNightCycleAt. rewrite Hm. cbn.
      unfold updateDayNightCycleAt. rewrite Hm. reflexivity. }
  destruct (findInterval_cases (dayNightKeyframes s) hour)
    as [(a & b & Hf) | [(x & Hf) | (x & Hf)]].
  - destruct (Qeq_bool (Keyframe.hour b - Keyframe.hour a) 0) eqn:Hspan.
    + unfold updateDayNightCycleAt. rewrite Hm, Hf, Hspan. reflexivity.
    + apply Qeq_bool_false in Hspan.
      rewrite (updateDayNightCycleAt_interval hour s sun a b Hm Hf Hspan).
      cbn [mbind outcome_bind obind].
      rewrite (updateDayNightCycleAt_interval hour (interpolated hour a b sun s)
                 (Light.mk (Color.lerp (Color.setHex (Keyframe.color a))
                                       (Color.setHex (Keyframe.color b))
                                       ((hour - Keyframe.hour a)
                                        / (Keyframe.hour b - Keyframe.hour a)))
                           (Keyframe.intensity a
                            + (Keyframe.intensity b - Keyframe.intensity a)
                              * ((hour - Keyframe.hour a)
                                 / (Keyframe.hour b - Keyframe.hour a)))
                           (Light.position sun))
                 a b); [|reflexivity|exact Hf|exact Hspan].
      f_equal. unfold interpolated, set_glare_window. cbn -[Color.setHex Qdiv].
      f_equal.
      * f_equal.
        -- destruct (Lights.ambient (lights s)); reflexivity.
        -- destruct (Lights.hemisphere (lights s)); reflexivity.
      * rewrite <- list_fmap_compose. apply list_fmap_ext.
        intros i m _. apply Glare_set_intensity_idem.
  - unfold updateDayNightCycleAt. rewrite Hm, Hf. reflexivity.
  - unfold updateDayNightCycleAt. rewrite Hm, Hf. destruct x; reflexivity.
Qed.

(** C8.  On a table with strictly increasing hours that starts at hour 0
    and ends at the hour-24 sentinel, for every hour in [0, 24) the scan
    returns a pair that brackets the hour, so the divisor
    [endFrame.hour - startFrame.hour] is not zero and the update completes
    without a division by zero. *)
Theorem bracketing_pair_has_nonzero_span :
  forall (s : t) (hour : Q),
    tableInvariant (dayNightKeyframes s) = true ->
    0 <= hour -> hour < 24 ->
    exists startFrame endFrame,
      findInterval (dayNightKeyframes s) hour = (Some startFrame, Some endFrame) /\
      Keyframe.hour startFrame <= hour /\ hour < Keyframe.hour endFrame /\
      ~ Keyframe.hour endFrame - Keyframe.hour startFrame == 0 /\
      exists s', updateDayNightCycleAt hour s = Done s'.
Proof.
  intros s hour Hinv H0 H24.
  destruct (findInterval_enclosed _ hour Hinv H0 H24) as (a & b & Hf & Hle & Hlt).
  assert (Hspan : ~ Keyframe.hour b - Keyframe.hour a == 0) by (intros E; qlra).
  exists a, b. repeat split; auto.
  destruct (Lights.main (lights s)) as [sun|] eqn:Hm.
  - eexists. apply (updateDayNightCycleAt_interval hour s sun a b); auto.
  - exists s. unfold updateDayNightCycleAt. rewrite Hm. reflexivity.
Qed.

Lemma bracketing_pair_has_nonzero_span_witness :
  exists startFrame endFrame,
    findInterval (dayNightKeyframes new) 23.5 = (Some startFrame, Some endFrame) /\
    ~ Keyframe.hour endFrame - Keyframe.hour startFrame == 0.
Proof.
  destruct (bracketing_pair_has_nonzero_span new 23.5)
    as (a & b & H1 & _ & _ & H2 & _);
    [ reflexivity | vm_compute; discriminate | vm_compute; reflexivity | ].
  exists a, b. split; assumption.
Defined.
Lemma createGlareMaterial_wf options s :
  Glare.wf (fst (createGlareMaterial options s)).
Proof. repeat split. Qed.

(** C9.  After one [update(camera)] on a rig with its sun and a valid
    keyframe table, every registered glare material carries the camera's
    position in [uCameraPosition] and the sun's new intensity in slot 0 of
    [uLightIntensities]; its light positions, light colours and intensity
    slots 1 to 3 are as before the call. *)
Theorem frame_update_refreshes_glare_uniforms :
  forall (now : Date.t) (cameraPosition : Vector3.t) (s : t) (sun : Light.t),
    Date.valid now ->
    tableInvariant (dayNightKeyframes s) = true ->
    Lights.main (lights s) = Some sun ->
    Forall Glare.wf (glareMaterials s) ->
    exists s' sun',
      update now cameraPosition s = Done s' /\
      Lights.main (lights s') = Some sun' /\
      length (glareMaterials s') = length (glareMaterials s) /\
      forall i m,
        glareMaterials s !! i = Some m ->
        exists m',
          glareMaterials s' !! i = Some m' /\
          Glare.uCameraPosition (Glare.mat_uniforms m') = cameraPosition /\
          Glare.uLightIntensities (Glare.mat_uniforms m') !! 0%nat
          = Some (Light.intensity sun') /\
          Glare.uLightPositions (Glare.mat_uniforms m')
          = Glare.uLightPositions (Glare.mat_uniforms m) /\
          Glare.uLightColors (Glare.mat_uniforms m')
          = Glare.uLightColors (Glare.mat_uniforms m) /\
          forall j, (1 <= j)%nat ->
            Glare.uLightIntensities (Glare.mat_uniforms m') !! j
            = Glare.uLightIntensities (Glare.mat_uniforms m) !! j.
Proof.
  intros now cam s sun Hnow Hinv Hm Hwf.
  destruct (hourOf_range now Hnow) as [H0 H24].
  destruct (findInterval_enclosed _ _ Hinv H0 H24) as (a & b & Hf & Hle & Hlt).
  assert (Hspan : ~ Keyframe.hour b - Keyframe.hour a == 0) by (intros E; qlra).
  unfold update, updateDayNightCycle.
  rewrite (updateDayNightCycleAt_interval _ s sun a b Hm Hf Hspan).
  eexists. eexists. split; [reflexivity|]. split; [reflexivity|].
  cbn -[Qdiv Color.setHex]. split.
  - rewrite !length_fmap. reflexivity.
  - intros i m Hi. rewrite !list_lookup_fmap, Hi. cbn -[Qdiv Color.setHex].
    eexists. split; [reflexivity|]. cbn -[Qdiv Color.setHex].
    repeat split.
    + apply list_lookup_insert_eq.
      rewrite Forall_lookup in Hwf. destruct (Hwf i m Hi) as (_ & _ & Hlen).
      rewrite Hlen. lia.
    + intros j Hj. apply list_lookup_insert_ne. lia.
Qed.

Lemma frame_update_refreshes_glare_uniforms_witness :
  exists s' m',
    update (Date.mk 6 0) (Vector3.mk 0 3 5)
           (snd (createGlareMaterial Options.empty (setupLights new))) = Done s' /\
    glareMaterials s' !! 0%nat = Some m' /\
    Glare.uCameraPosition (Glare.mat_uniforms m') = Vector3.mk 0 3 5.
Proof.
  destruct (frame_update_refreshes_glare_uniforms
              (Date.mk 6 0) (Vector3.mk 0 3 5)
              (snd (createGlareMaterial Options.empty (setupLights new)))
              (Light.mk (Color.setHex 0xffeedd) 0.22 (Vector3.mk (-5) 8 3)))
    as (s' & sun' & H1 & _ & _ & H2).
  - split; cbn; lia.
  - reflexivity.
  - reflexivity.
  - repeat constructor.
  - destruct (H2 0%nat _ eq_refl) as (m' & Hm' & Hcam & _).
    exists s', m'. auto.
Defined.

(** C6, as the code has it.  The keyframe table is the literal the
    constructor writes, and that literal has strictly increasing hours, from
    0 to the sentinel at 24; [init] does not look at the table: it completes
    normally on every lighting system and leaves the table as it found it. *)
Theorem init_keeps_keyframes_unchecked :
  tableInvariant (dayNightKeyframes new) = true /\
  forall s : t, exists s', init s = Done s' /\ dayNightKeyframes s' = dayNightKeyframes s.
Proof.
  split; [reflexivity|]. intros s. eexists. split; reflexivity.
Qed.

(** C6, as stated, fails: on a table whose sentinel hour was written 0
    (hours neither sorted nor distinct) [init] completes normally, and the
    22:00 update then divides by zero. *)
Lemma init_accepts_malformed_table :
  strictlyIncreasing (dayNightKeyframes malformedSystem) = false /\
  (exists s0,
      init malformedSystem = Done s0 /\
      updateDayNightCycle (Date.mk 22 0) s0 = NonFinite).
Proof. split; [reflexivity|]. eexists. split; reflexivity. Qed.
End DayNightClaims.

(** ** The glare fragment program *)

Section GlareAlpha.
Import GlareShader.
Local Open Scope R_scope.

Lemma clamp_range (x lo hi : R) : lo <= hi -> lo <= clamp x lo hi <= hi.
Proof.
  intros H. unfold clamp. split.
  - apply Rmin_glb; [apply Rmax_r | exact H].
  - apply Rmin_r.
Qed.

(** C2.  Whatever the camera position, the surface point and normal, the
    three tuning knobs and the contents of the four light slots, the alpha
    the glare fragment program writes lies in [0, 0.7]. *)
Theorem glare_alpha_within_bounds :
  forall (u : uniforms) (vWorldPosition vWorldNormal : vec3),
    0 <= alpha (fragmentShader u vWorldPosition vWorldNormal) <= 0.7.
Proof.
  intros u p n. unfold fragmentShader. cbn [alpha].
  apply clamp_range. rlra.
Qed.

(** The same bound for the uniform bag of any JS-side glare material. *)
Corollary glare_alpha_of_material (m : Glare.material) (p n : vec3) :
  0 <= alpha (fragmentShader (ofMaterial m) p n) <= 0.7.
Proof.
  unfold fragmentShader. cbn [alpha]. apply clamp_range. rlra.
Qed.
End GlareAlpha.

(** ** The replacement overlay of the outline pass *)

Section OverlayClaims.
Import Overlay.

Lemma replacement_declares (name : string) :
  In name renderSlots -> is_Some (uniforms replacement !! name).
Proof.
  intros H. cbn in H.
  repeat (destruct H as [<-|H]; [vm_compute; eauto|]). contradiction.
Qed.

Lemma renderOverlay_replacement (f : frame) (vUv : uv) :
  exists out,
    renderOverlay f replacement = Done out /\
    out vUv = vmull (passEdgeStrength f)
                    (vadd (edgeBuffer1 f vUv) (vmulr (blurBuffer2 f vUv) (passEdgeGlow f))).
Proof.
  eexists. split.
  - vm_compute. reflexivity.
  - vm_compute. reflexivity.
Qed.
Lemma replacementFragment_ignores (name : string) (v : uvalue)
      (u : gmap string uvalue) (vUv : uv) :
  name <> "edgeTexture1"%string -> name <> "edgeTexture2"%string ->
  name <> "edgeStrength"%string -> name <> "edgeGlow"%string ->
  replacementFragment (<[name := v]> u) vUv = replacementFragment u vUv.
Proof.
  intros H1 H2 H3 H4. unfold replacementFragment, texture2D, float.
  rewrite !lookup_insert_ne by assumption. reflexivity.
Qed.

Lemma setupPostProcessing_overlay three pass :
  SceneManager.outlinePass (SceneManager.setupPostProcessing three SceneManager.new)
  = Some pass ->
  OutlinePass.overlayMaterial pass = replacement.
Proof.
  unfold SceneManager.setupPostProcessing.
  destruct three as [[] [] [] []]; cbn; intros H; try discriminate.
  injection H as <-. reflexivity.
Qed.

(** C3.  The overlay material [setupPostProcessing] installs on the outline
    pass declares the seven uniform slots the pass's render step assigns
    (so the assignments of a frame all succeed); its fragment output is
    [edgeStrength * (edgeTexture1 + edgeTexture2 * edgeGlow)], which does
    not change with the mask texture, the pattern texture or the pattern
    flag; and it blends additively with depth test and depth write off. *)
Theorem overlay_replacement_contract :
  forall (three : SceneManager.addons) (pass : OutlinePass.t),
    SceneManager.outlinePass (SceneManager.setupPostProcessing three SceneManager.new)
    = Some pass ->
    (forall name : string,
        In name [ "maskTexture"; "edgeTexture1"; "edgeTexture2"; "patternTexture";
                  "edgeStrength"; "edgeGlow"; "usePatternTexture" ]%string ->
        is_Some (uniforms (OutlinePass.overlayMaterial pass) !! name)) /\
    (forall (f : frame) (vUv : uv),
        exists out,
          renderOverlay f (OutlinePass.overlayMaterial pass) = Done out /\
          out vUv
          = vmull (passEdgeStrength f)
                  (vadd (edgeBuffer1 f vUv)
                        (vmulr (blurBuffer2 f vUv) (passEdgeGlow f)))) /\
    (forall (name : string) (v : uvalue) (u : gmap string uvalue) (vUv : uv),
        In name [ "maskTexture"; "patternTexture"; "usePatternTexture" ]%string ->
        fragmentShader (OutlinePass.overlayMaterial pass) (<[name := v]> u) vUv
        = fragmentShader (OutlinePass.overlayMaterial pass) u vUv) /\
    blending (OutlinePass.overlayMaterial pass) = AdditiveBlending /\
    depthTest (OutlinePass.overlayMaterial pass) = false /\
    depthWrite (OutlinePass.overlayMaterial pass) = false.
Proof.
  intros three pass H. rewrite (setupPostProcessing_overlay three pass H).
  split; [|split; [|split]].
  - intros name Hin. apply replacement_declares. exact Hin.
  - intros f vUv. apply renderOverlay_replacement.
  - intros name v u vUv Hin. cbn [fragmentShader replacement].
    cbn in Hin.
    repeat (destruct Hin as [<-|Hin];
            [apply replacementFragment_ignores; discriminate|]).
    contradiction.
  - repeat split.
Qed.

Lemma overlay_replacement_contract_witness :
  exists pass,
    SceneManager.outlinePass
      (SceneManager.setupPostProcessing (SceneManager.mkAddons true true true true)
                                        SceneManager.new) = Some pass /\
    blending (OutlinePass.overlayMaterial pass) = AdditiveBlending.
Proof.
  eexists. split; [reflexivity|].
  apply (overlay_replacement_contract (SceneManager.mkAddons true true true true)).
  reflexivity.
Defined.

(** A material that leaves a slot out makes the uniform writes of the
    render step fail, so nothing is composited. *)
Lemma renderOverlay_missing_slot (f : frame) (name : string) :
  In name renderSlots ->
  renderOverlay f (mk (delete name (uniforms replacement)) replacementFragment
                      AdditiveBlending false false true)
  = TypeError.
Proof.
  intros H. cbn in H.
  repeat (destruct H as [<-|H]; [vm_compute; reflexivity|]). contradiction.
Qed.
End OverlayClaims.

(** ** The idle timer of the hint *)

Section HintTimer.
Import Interaction.






















End HintTimer.

(** ** The hint glow *)

Section HintGlow.
Import Interaction.

(** C10.  When the idle timer comes due while an object is zoomed, or before
    any outline pass is wired, the hint callback changes nothing: the pass
    is not enabled, [edgeStrength] is not reset, no tween is registered, and
    [hintActive] keeps its value, so a false flag stays false. *)
Theorem hint_callback_inert_when_zoomed_or_unwired :
  forall (w : t) (id : TimerId),
    is_Some (currentZoomedObject w) \/ outlinePass w = None ->
    showHint w = w /\
    outlinePass (handle w (TimerDue id)) = outlinePass w /\
    hintActive (handle w (TimerDue id)) = hintActive w /\
    tweens (handle w (TimerDue id)) = tweens w /\
    (hintActive w = false -> hintActive (handle w (TimerDue id)) = false).
Proof.
  intros w id H.
  assert (Hshow : forall w', currentZoomedObject w' = currentZoomedObject w ->
                             outlinePass w' = outlinePass w -> showHint w' = w').
  { intros w' Hz Hp. unfold showHint. rewrite Hz, Hp.
    destruct H as [[z Hz']| Hn].
    - rewrite Hz'. destruct (outlinePass w); reflexivity.
    - rewrite Hn. reflexivity. }
  split; [apply Hshow; reflexivity|].
  cbn [handle]. unfold fireTimer.
  destruct (timers w !! id) as [tm|]; [|tauto].
  destruct (callback tm). rewrite Hshow by reflexivity. cbn. tauto.
Qed.

Lemma hint_callback_inert_when_zoomed_or_unwired_witness :
  showHint (run (new (Vector3.mk 0 3 5) (Vector3.mk 0 2 0))
                [ Wire SceneManager.configuredOutlinePass [mug]; Click (Some mug) ])
  = run (new (Vector3.mk 0 3 5) (Vector3.mk 0 2 0))
        [ Wire SceneManager.configuredOutlinePass [mug]; Click (Some mug) ].
Proof.
  apply (hint_callback_inert_when_zoomed_or_unwired
           (run (new (Vector3.mk 0 3 5) (Vector3.mk 0 2 0))
                [ Wire SceneManager.configuredOutlinePass [mug]; Click (Some mug) ])
           2%positive).
  left. vm_compute. eauto.
Defined.

(** *** Tweens that leave the hint alone *)

Lemma sameHint_refl w : sameHint w w.
Proof. repeat split. Qed.

Lemma sameHint_trans w1 w2 w3 : sameHint w1 w2 -> sameHint w2 w3 -> sameHint w1 w3.
Proof. unfold sameHint. intros (-> & -> & ->) (-> & -> & ->). repeat split. Qed.

Lemma setProp_tweens p v w : tweens (setProp p v w) = tweens w.
Proof. destruct p; reflexivity. Qed.

Lemma writeProps_tweens fin ratio vars starts w :
  tweens (writeProps fin ratio vars starts w) = tweens w.
Proof.
  revert starts w. induction vars as [|[p e] vars IH]; intros starts w; [reflexivity|].
  destruct starts as [|s0 starts]; [reflexivity|].
  cbn. rewrite IH. apply setProp_tweens.
Qed.

Lemma startHintTimer_sameHint w : sameHint w (startHintTimer w).
Proof. unfold startHintTimer. destruct (hintTimer w); repeat split. Qed.

Lemma complete_tweens c w : tweens (complete c w) = tweens w.
Proof.
  destruct c; cbn [complete]; try reflexivity.
  destruct (startHintTimer_sameHint (set_zoom true None w)) as (_ & _ & ->). reflexivity.
Qed.

Lemma renderTween_tweens dt tw w : tweens (snd (renderTween dt tw w)) = tweens w.
Proof.
  unfold renderTween. destruct (Qle_bool (duration tw) (time tw + dt)); cbn [snd].
  - rewrite complete_tweens. apply writeProps_tweens.
  - apply writeProps_tweens.
Qed.

Lemma renderAll_cons dt tw rest w :
  renderAll dt (tw :: rest) w
  = (match fst (renderTween dt tw w) with
     | Some tw' => tw' :: fst (renderAll dt rest (snd (renderTween dt tw w)))
     | None => fst (renderAll dt rest (snd (renderTween dt tw w)))
     end,
     snd (renderAll dt rest (snd (renderTween dt tw w)))).
Proof.
  cbn [renderAll]. destruct (renderTween dt tw w) as [kept w1]. cbn [fst snd].
  destruct (renderAll dt rest w1) as [live w2]. reflexivity.
Qed.


Lemma renderAll_tweens dt tws w : tweens (snd (renderAll dt tws w)) = tweens w.
Proof.
  revert w. induction tws as [|tw rest IH]; intros w; [reflexivity|].
  rewrite renderAll_cons. cbn [snd]. rewrite IH. apply renderTween_tweens.
Qed.

Lemma tick_eq dt w :
  tick dt w
  = set_tweens (fst (renderAll dt (tweens w) (set_tweens [] w)))
               (snd (renderAll dt (tweens w) (set_tweens [] w))).
Proof.
  unfold tick.
  pose proof (renderAll_tweens dt (tweens w) (set_tweens [] w)) as Ht.
  destruct (renderAll dt (tweens w) (set_tweens [] w)) as [live w1].
  cbn [fst snd] in *. rewrite Ht. cbn [tweens set_tweens]. rewrite app_nil_r. reflexivity.
Qed.

Lemma setProp_other p v w :
  p <> EdgeStrength ->
  outlinePass (setProp p v w) = outlinePass w /\ hintActive (setProp p v w) = hintActive w.
Proof. destruct p; intros H; try contradiction; split; reflexivity. Qed.

Lemma setProp_hintActive p v w : hintActive (setProp p v w) = hintActive w.
Proof. destruct p; reflexivity. Qed.

Lemma writeProps_other fin ratio vars starts w :
  existsb (fun pe => match fst pe with EdgeStrength => true | _ => false end) vars = false ->
  outlinePass (writeProps fin ratio vars starts w) = outlinePass w /\
  hintActive (writeProps fin ratio vars starts w) = hintActive w.
Proof.
  revert starts w. induction vars as [|[p e] vars IH]; intros starts w H; [split; reflexivity|].
  destruct starts as [|s0 starts]; [split; reflexivity|].
  cbn in H. apply orb_false_iff in H as [Hp Hrest].
  cbn [writeProps]. destruct (IH starts (setProp p (if fin then e else s0 + (e - s0) * ratio) w) Hrest)
    as [-> ->].
  apply setProp_other. intros ->. discriminate.
Qed.

Lemma animates_EdgeStrength tw :
  animates EdgeStrength tw
  = existsb (fun pe => match fst pe with EdgeStrength => true | _ => false end) (vars tw).
Proof.
  reflexivity.
Qed.

Lemma renderTween_leaves dt tw w :
  leavesHint tw ->
  outlinePass (snd (renderTween dt tw w)) = outlinePass w /\
  hintActive (snd (renderTween dt tw w)) = hintActive w /\
  match fst (renderTween dt tw w) with Some tw' => leavesHint tw' | None => True end.
Proof.
  intros [Ha Hc]. rewrite animates_EdgeStrength in Ha. unfold renderTween.
  set (starts := match from tw with Some l => l | None => _ end).
  destruct (Qle_bool (duration tw) (time tw + dt)); cbn [fst snd].
  - destruct (writeProps_other true 1 (vars tw) starts w Ha) as [E1 E2].
    destruct (onComplete tw); cbn [complete]; try contradiction.
    + rewrite E1, E2. tauto.
    + destruct (startHintTimer_sameHint
                  (set_zoom true None (writeProps true 1 (vars tw) starts w)))
        as (-> & -> & _).
      cbn. rewrite E1, E2. tauto.
  - destruct (writeProps_other false (easeAt (easing tw) ((time tw + dt) / duration tw))
                (vars tw) starts w Ha) as [-> ->].
    repeat split; [rewrite animates_EdgeStrength; exact Ha | exact Hc].
Qed.

Lemma renderAll_leaves dt tws w :
  Forall leavesHint tws ->
  outlinePass (snd (renderAll dt tws w)) = outlinePass w /\
  hintActive (snd (renderAll dt tws w)) = hintActive w /\
  Forall leavesHint (fst (renderAll dt tws w)).
Proof.
  intros H. revert w. induction H as [|tw rest Htw Hrest IH]; intros w.
  - repeat split. constructor.
  - rewrite renderAll_cons. cbn [fst snd].
    destruct (renderTween_leaves dt tw w Htw) as (E1 & E2 & E3).
    destruct (IH (snd (renderTween dt tw w))) as (-> & -> & F).
    rewrite E1, E2. repeat split.
    destruct (fst (renderTween dt tw w)); [constructor; assumption | assumption].
Qed.






Lemma startHintTimer_fields (w : t) :
  tweens (startHintTimer w) = tweens w /\
  outlinePass (startHintTimer w) = outlinePass w /\
  hintActive (startHintTimer w) = hintActive w /\
  currentZoomedObject (startHintTimer w) = currentZoomedObject w.
Proof. unfold startHintTimer. destruct (hintTimer w); repeat split. Qed.

Lemma zoomToObject_fields (o : Object3D.t) (w : t) :
  (exists later, tweens (zoomToObject o w) = tweens w ++ later /\ Forall leavesHint later) /\
  outlinePass (zoomToObject o w) = outlinePass w /\
  hintActive (zoomToObject o w) = hintActive w.
Proof.
  unfold zoomToObject, gsap_to. cbn. rewrite <- app_assoc.
  split; [eexists; split; [reflexivity|] | split; reflexivity].
  repeat constructor; discriminate.
Qed.

Lemma resetCamera_fields (w : t) :
  (exists later, tweens (resetCamera w) = tweens w ++ later /\ Forall leavesHint later) /\
  outlinePass (resetCamera w) = outlinePass w /\
  hintActive (resetCamera w) = hintActive w.
Proof.
  unfold resetCamera, gsap_to. destruct (currentZoomedObject w); cbn.
  - rewrite <- app_assoc.
    split; [eexists; split; [reflexivity|] | split; reflexivity].
    repeat constructor; discriminate.
  - split; [exists []; split; [symmetry; apply app_nil_r | constructor]
           | split; reflexivity].
Qed.




End HintGlow.

(** ** The lighting system under its callers *)

Section LightingExtras.
Import LightingSystem LightingCalls.

Lemma wf_set_intensity i v m : Glare.wf m -> Glare.wf (Glare.set_intensity i v m).
Proof.
  intros (H1 & H2 & H3). repeat split; cbn; auto. rewrite length_insert. exact H3.
Qed.

Lemma wf_set_camera p m : Glare.wf m -> Glare.wf (Glare.set_camera p m).
Proof. intros (H1 & H2 & H3). repeat split; assumption. Qed.

Lemma Forall_wf_fmap (f : Glare.material -> Glare.material) l :
  (forall m, Glare.wf m -> Glare.wf (f m)) -> Forall Glare.wf l -> Forall Glare.wf (f <$> l).
Proof.
  intros Hf H. induction H as [|m l Hm _ IH]; constructor; auto.
Qed.

Lemma ready_tableInvariant s : ready s -> tableInvariant (dayNightKeyframes s) = true.
Proof. intros (-> & _). reflexivity. Qed.

Lemma ready_updateGlare cam s : ready s -> ready (updateGlare cam s).
Proof.
  intros (H1 & H2 & H3 & H4 & H5 & H6 & H7 & H8). repeat split; auto.
  cbn. apply Forall_wf_fmap; [apply wf_set_camera | exact H8].
Qed.

Lemma ready_updateDayNightCycle now s :
  ready s -> Date.valid now ->
  exists s', updateDayNightCycle now s = Done s' /\ ready s'
             /\ length (glareMaterials s') = length (glareMaterials s).
Proof.
  intros Hr Hnow. pose proof (ready_tableInvariant s Hr) as Hinv.
  destruct Hr as (H1 & H2 & H3 & [sun H4] & H5 & H6 & H7 & H8).
  destruct (hourOf_range now Hnow) as [H0 H24].
  destruct (findInterval_enclosed _ _ Hinv H0 H24) as (a & b & Hf & Hle & Hlt).
  assert (Hspan : ~ Keyframe.hour b - Keyframe.hour a == 0) by (intros E; qlra).
  exists (interpolated (hourOf now) a b sun s). split.
  - apply updateDayNightCycleAt_interval; assumption.
  - split.
    + repeat split; cbn -[Qdiv Color.setHex]; auto.
      * destruct H2 as [x ->]. cbn. eauto.
      * destruct H3 as [x ->]. cbn. eauto.
      * apply Forall_wf_fmap; [apply wf_set_intensity | exact H8].
    + cbn -[Qdiv Color.setHex]. apply length_fmap.
Qed.

Lemma ready_perform c s :
  ready s -> validCall c ->
  exists s', perform c s = Done s' /\ ready s'
             /\ length (glareMaterials s')
                = (length (glareMaterials s) + (if createsMaterial c then 1 else 0))%nat.
Proof.
  intros Hr Hc. destruct c as [|l|o|cam|now|now cam]; cbn [perform createsMaterial].
  - eexists. split; [reflexivity|]. split; [|cbn; lia].
    destruct Hr as (H1 & _ & _ & _ & _ & _ & _ & H8). repeat split; cbn; eauto.
  - eexists. split; [reflexivity|]. split; [|cbn; lia].
    destruct Hr as (H1 & H2 & H3 & H4 & H5 & H6 & H7 & H8). repeat split; auto.
  - eexists. split; [reflexivity|]. split.
    + destruct Hr as (H1 & H2 & H3 & H4 & H5 & H6 & H7 & H8). repeat split; auto.
      cbn. apply Forall_app. split; [exact H8|]. repeat constructor.
    + cbn. rewrite length_app. reflexivity.
  - eexists. split; [reflexivity|]. split; [apply ready_updateGlare, Hr|].
    cbn. rewrite length_fmap. lia.
  - destruct (ready_updateDayNightCycle now s Hr Hc) as (s' & E & Hr' & Hl).
    exists s'. repeat split; auto; try apply Hr'. lia.
  - destruct (ready_updateDayNightCycle now s Hr Hc) as (s' & E & Hr' & Hl).
    exists (updateGlare cam s'). unfold update. rewrite E. split; [reflexivity|].
    split; [apply ready_updateGlare, Hr'|]. cbn. rewrite length_fmap. lia.
Qed.

Lemma ready_performAll cs s :
  ready s -> Forall validCall cs ->
  exists s', performAll cs s = Done s' /\ ready s'
             /\ length (glareMaterials s')
                = (length (glareMaterials s) + length (List.filter createsMaterial cs))%nat.
Proof.
  intros Hr Hcs. revert s Hr. induction Hcs as [|c cs Hc _ IH]; intros s Hr.
  - exists s. repeat split; try apply Hr. cbn. lia.
  - destruct (ready_perform c s Hr Hc) as (s1 & E1 & Hr1 & Hl1).
    destruct (IH s1 Hr1) as (s' & E & Hr' & Hl).
    exists s'. cbn [performAll]. rewrite E1. split; [exact E|]. split; [exact Hr'|].
    rewrite Hl, Hl1. cbn [List.filter]. destruct (createsMaterial c); cbn; lia.
Qed.

(** X1.  Once [init] has run on a freshly constructed lighting system, no
    sequence of calls from the factories and the frame loop throws or
    divides by zero, provided the clock gives valid times of day; the
    keyframe table stays the constructor's, the five lights and the
    environment map stay in place, every registered glare material keeps
    its four slots, and there is one registered material per
    [createGlareMaterial] call. *)
Theorem lighting_calls_never_throw :
  forall cs : list call,
    Forall validCall cs ->
    exists s,
      performAll (Init :: cs) new = Done s /\
      ready s /\
      length (glareMaterials s) = length (List.filter createsMaterial cs).
Proof.
  intros cs Hcs.
  assert (Hr : ready (setupLights (createEnvironmentMap new))).
  { repeat split; cbn; eauto. }
  destruct (ready_performAll cs _ Hr Hcs) as (s & E & Hr' & Hl).
  exists s. split; [exact E|]. split; [exact Hr'|]. rewrite Hl. reflexivity.
Qed.

Lemma lighting_calls_never_throw_witness :
  exists s,
    performAll [ Init; CreateGlareMaterial Options.empty;
                 Update (Date.mk 23 59) (Vector3.mk 0 3 5);
                 CreateGlareMaterial (Options.mk (Some 0.25) (Some 5.0) (Some 2.0));
                 Update (Date.mk 0 0) (Vector3.mk 1 3 5) ] new = Done s /\
    length (glareMaterials s) = 2%nat.
Proof.
  destruct (lighting_calls_never_throw
              [ CreateGlareMaterial Options.empty;
                Update (Date.mk 23 59) (Vector3.mk 0 3 5);
                CreateGlareMaterial (Options.mk (Some 0.25) (Some 5.0) (Some 2.0));
                Update (Date.mk 0 0) (Vector3.mk 1 3 5) ])
    as (s & E & _ & Hl).
  - repeat constructor; cbn; lia.
  - exists s. split; [exact E | exact Hl].
Defined.


Lemma findInterval_members kfs hour a b :
  findInterval kfs hour = (Some a, Some b) -> a ∈ kfs /\ b ∈ kfs.
Proof.
  unfold findInterval.
  destruct (scanFrom kfs hour 0 (length kfs - 1)) as [[a' b']|] eqn:E.
  - intros H. injection H as -> ->.
    destruct (scanFrom_sound kfs hour _ _ _ _ E) as (j & _ & Ha & Hb & _).
    split; eapply list_elem_of_lookup_2; eauto.
  - intros H. injection H as Ha Hb.
    split; eapply list_elem_of_lookup_2; eauto.
Qed.

Lemma factor_unit (hour ha hb : Q) :
  ha <= hour -> hour < hb -> 0 <= (hour - ha) / (hb - ha) /\ (hour - ha) / (hb - ha) <= 1.
Proof.
  intros Hle Hlt. assert (Hs : 0 < hb - ha) by qlra. split.
  - apply Qle_shift_div_l; [exact Hs|]. qlra.
  - apply Qle_shift_div_r; [exact Hs|]. qlra.
Qed.

Lemma blend_between (lo hi x y f : Q) :
  lo <= x -> x <= hi -> lo <= y -> y <= hi -> 0 <= f -> f <= 1 ->
  lo <= x + (y - x) * f /\ x + (y - x) * f <= hi.
Proof.
  intros. split; Lqa.nra.
Qed.

(** X3.  On a valid table whose keyframe intensities all lie in [lo, hi],
    at every hour of the day the update leaves the sun's intensity in
    [lo, hi], the ambient intensity in [0.2 + 0.25 lo, 0.2 + 0.25 hi] and
    the hemisphere intensity in [0.1 + 0.25 lo, 0.1 + 0.25 hi]. *)
Theorem day_night_intensities_bounded :
  forall (s : t) (hour lo hi : Q) (sun : Light.t),
    tableInvariant (dayNightKeyframes s) = true ->
    0 <= hour -> hour < 24 ->
    Forall (fun k => lo <= Keyframe.intensity k /\ Keyframe.intensity k <= hi)
           (dayNightKeyframes s) ->
    Lights.main (lights s) = Some sun ->
    exists s' sun',
      updateDayNightCycleAt hour s = Done s' /\
      Lights.main (lights s') = Some sun' /\
      lo <= Light.intensity sun' /\ Light.intensity sun' <= hi /\
      (forall l, Lights.ambient (lights s') = Some l ->
         0.2 + lo * 0.25 <= Light.intensity l /\ Light.intensity l <= 0.2 + hi * 0.25) /\
      (forall l, Lights.hemisphere (lights s') = Some l ->
         0.1 + lo * 0.25 <= Light.intensity l /\ Light.intensity l <= 0.1 + hi * 0.25).
Proof.
  intros s hour lo hi sun Hinv H0 H24 Hall Hm.
  destruct (findInterval_enclosed _ _ Hinv H0 H24) as (a & b & Hf & Hle & Hlt).
  assert (Hspan : ~ Keyframe.hour b - Keyframe.hour a == 0) by (intros E; qlra).
  destruct (findInterval_members _ _ _ _ Hf) as [Ha Hb].
  rewrite Forall_forall in Hall.
  destruct (Hall a Ha) as [La Ua]. destruct (Hall b Hb) as [Lb Ub].
  destruct (factor_unit hour _ _ Hle Hlt) as [F0 F1].
  destruct (blend_between lo hi _ _ _ La Ua Lb Ub F0 F1) as [B0 B1].
  exists (interpolated hour a b sun s). eexists.
  split; [apply updateDayNightCycleAt_interval; assumption|].
  split; [reflexivity|]. cbn -[Qdiv Color.setHex].
  split; [exact B0|]. split; [exact B1|]. split.
  - intros l Hl. destruct (Lights.ambient (lights s)); [|discriminate].
    cbn in Hl. injection Hl as <-. cbn -[Qdiv]. split; qlra.
  - intros l Hl. destruct (Lights.hemisphere (lights s)); [|discriminate].
    cbn in Hl. injection Hl as <-. cbn -[Qdiv]. split; qlra.
Qed.

Lemma day_night_intensities_bounded_witness :
  exists s' l,
    updateDayNightCycleAt 13.25 (setupLights new) = Done s' /\
    Lights.ambient (lights s') = Some l /\
    0.25 <= Light.intensity l /\ Light.intensity l <= 0.5.
Proof.
  destruct (day_night_intensities_bounded (setupLights new) 13.25 0.3 1.2
              (Light.mk (Color.setHex 0xffeedd) 0.22 (Vector3.mk (-5) 8 3)))
    as (s' & sun' & E & _ & _ & _ & Ha & _).
  - reflexivity.
  - vm_compute; discriminate.
  - vm_compute; reflexivity.
  - repeat constructor; vm_compute; discriminate.
  - reflexivity.
  - assert (Hl : is_Some (Lights.ambient (lights s'))).
    { revert E. vm_compute. intros E. injection E as <-. eauto. }
    destruct Hl as [l Hl]. exists s', l. split; [exact E|]. split; [exact Hl|].
    destruct (Ha l Hl) as [A1 A2]. split; qlra.
Defined.

Lemma setHex_unit (hex : Z) :
  unit (Color.r (Color.setHex hex)) /\ unit (Color.g (Color.setHex hex))
  /\ unit (Color.b (Color.setHex hex)).
Proof.
  assert (Hbyte : forall x : Z, unit (inject_Z (Z.land x 255) / 255)).
  { intros x.
    assert (Hx : (0 <= Z.land x 255 <= 255)%Z).
    { change 255%Z with (Z.ones 8). rewrite Z.land_ones by lia.
      pose proof (Z.mod_pos_bound x (2 ^ 8)) as Hb. change (Z.ones 8) with 255%Z.
      change (2 ^ 8)%Z with 256%Z in *. lia. }
    destruct Hx as [Hx0 Hx1].
    rewrite Zle_Qle in Hx0. rewrite Zle_Qle in Hx1.
    change (inject_Z 0) with 0 in Hx0. change (inject_Z 255) with 255 in Hx1.
    split.
    - apply Qle_shift_div_l; [reflexivity | qlra].
    - apply Qle_shift_div_r; [reflexivity | qlra]. }
  unfold Color.setHex. cbn [Color.r Color.g Color.b]. auto.
Qed.

(** X4.  On a valid table, at every hour of the day the update leaves the
    sun a colour whose three channels lie in [0, 1], whatever integers the
    keyframes carry as colours. *)
Theorem sun_colour_stays_in_gamut :
  forall (s : t) (hour : Q) (sun : Light.t),
    tableInvariant (dayNightKeyframes s) = true ->
    0 <= hour -> hour < 24 ->
    Lights.main (lights s) = Some sun ->
    exists s' sun',
      updateDayNightCycleAt hour s = Done s' /\
      Lights.main (lights s') = Some sun' /\
      unit (Color.r (Light.color sun')) /\
      unit (Color.g (Light.color sun')) /\
      unit (Color.b (Light.color sun')).
Proof.
  intros s hour sun Hinv H0 H24 Hm.
  destruct (findInterval_enclosed _ _ Hinv H0 H24) as (a & b & Hf & Hle & Hlt).
  assert (Hspan : ~ Keyframe.hour b - Keyframe.hour a == 0) by (intros E; qlra).
  destruct (factor_unit hour _ _ Hle Hlt) as [F0 F1].
  destruct (setHex_unit (Keyframe.color a)) as ([A1 A2] & [A3 A4] & [A5 A6]).
  destruct (setHex_unit (Keyframe.color b)) as ([B1 B2] & [B3 B4] & [B5 B6]).
  exists (interpolated hour a b sun s). eexists.
  split; [apply updateDayNightCycleAt_interval; assumption|].
  split; [reflexivity|]. cbn -[Qdiv Color.setHex]. unfold unit.
  split; [|split]; apply blend_between; assumption.
Qed.

Lemma sun_colour_stays_in_gamut_witness :
  exists s' sun',
    updateDayNightCycleAt 6 (setupLights new) = Done s' /\
    Lights.main (lights s') = Some sun' /\
    unit (Color.r (Light.color sun')).
Proof.
  destruct (sun_colour_stays_in_gamut (setupLights new) 6
              (Light.mk (Color.setHex 0xffeedd) 0.22 (Vector3.mk (-5) 8 3)))
    as (s' & sun' & E & Hs & Hr & _).
  - reflexivity.
  - vm_compute; discriminate.
  - vm_compute; reflexivity.
  - reflexivity.
  - exists s', sun'. auto.
Defined.
Lemma updateDayNightCycleAt_Done hour s s1 sun :
  Lights.main (lights s) = Some sun ->
  updateDayNightCycleAt hour s = Done s1 ->
  exists a b,
    findInterval (dayNightKeyframes s) hour = (Some a, Some b) /\
    ~ Keyframe.hour b - Keyframe.hour a == 0 /\
    s1 = interpolated hour a b sun s.
Proof.
  intros Hm H.
  destruct (findInterval_cases (dayNightKeyframes s) hour)
    as [(a & b & Hf) | [(x & Hf) | (x & Hf)]].
  - destruct (Qeq_bool (Keyframe.hour b - Keyframe.hour a) 0) eqn:Hspan.
    + unfold updateDayNightCycleAt in H. rewrite Hm, Hf, Hspan in H. discriminate.
    + apply Qeq_bool_false in Hspan.
      rewrite (updateDayNightCycleAt_interval hour s sun a b Hm Hf Hspan) in H.
      injection H as <-. exists a, b. auto.
  - unfold updateDayNightCycleAt in H. rewrite Hm, Hf in H. discriminate.
  - unfold updateDayNightCycleAt in H. rewrite Hm, Hf in H. destruct x; discriminate.
Qed.

(** The outcome of a frame depends on the state only through the table,
    the presence of the sun and what the frame does not overwrite. *)
Lemma update_congruence hour cam (s s' : t) sun sun' :
  dayNightKeyframes s' = dayNightKeyframes s ->
  Lights.main (lights s) = Some sun -> Lights.main (lights s') = Some sun' ->
  (forall a b, updateGlare cam (interpolated hour a b sun' s')
               = updateGlare cam (interpolated hour a b sun s)) ->
  (s1 ← updateDayNightCycleAt hour s'; mret (updateGlare cam s1))
  = (s1 ← updateDayNightCycleAt hour s; mret (updateGlare cam s1)).
Proof.
  intros Hk Hm Hm' Hi.
  destruct (findInterval_cases (dayNightKeyframes s) hour)
    as [(a & b & Hf) | [(x & Hf) | (x & Hf)]].
  - destruct (Qeq_bool (Keyframe.hour b - Keyframe.hour a) 0) eqn:Hspan.
    + unfold updateDayNightCycleAt. rewrite Hm, Hm', Hk, Hf, Hspan. reflexivity.
    + apply Qeq_bool_false in Hspan.
      rewrite (updateDayNightCycleAt_interval hour s sun a b Hm Hf Hspan).
      rewrite (updateDayNightCycleAt_interval hour s' sun' a b Hm');
        [ | rewrite Hk; exact Hf | exact Hspan].
      cbn [mbind outcome_bind obind mret outcome_ret]. rewrite Hi. reflexivity.
  - unfold updateDayNightCycleAt. rewrite Hm, Hm', Hk, Hf. reflexivity.
  - unfold updateDayNightCycleAt. rewrite Hm, Hm', Hk, Hf. reflexivity.
Qed.

Lemma option_fmap_set_intensity v v' (o : option Light.t) :
  Light.set_intensity v <$> (Light.set_intensity v' <$> o) = Light.set_intensity v <$> o.
Proof. destruct o; reflexivity. Qed.

(** X5.  The frame update keeps no memory of earlier frames: the state a
    frame leaves depends on the state before the previous frame only, not
    on that previous frame's clock or camera. *)
Theorem frame_update_memoryless :
  forall (now1 now2 : Date.t) (cam1 cam2 : Vector3.t) (s s1 : t),
    update now1 cam1 s = Done s1 ->
    update now2 cam2 s1 = update now2 cam2 s.
Proof.
  intros now1 now2 cam1 cam2 s s1. unfold update, updateDayNightCycle.
  generalize (hourOf now1) (hourOf now2). intros h1 h2 H.
  destruct (updateDayNightCycleAt h1 s) as [s0| |] eqn:E1; try discriminate.
  cbn in H. injection H as <-.
  destruct (Lights.main (lights s)) as [sun|] eqn:Hm.
  - destruct (updateDayNightCycleAt_Done h1 s s0 sun Hm E1) as (a & b & Hf & Hspan & ->).
    apply (update_congruence h2 cam2 s
             (updateGlare cam1 (interpolated h1 a b sun s)) sun
             (Light.mk (Color.lerp (Color.setHex (Keyframe.color a))
                                   (Color.setHex (Keyframe.color b))
                                   ((h1 - Keyframe.hour a)
                                    / (Keyframe.hour b - Keyframe.hour a)))
                       (Keyframe.intensity a
                        + (Keyframe.intensity b - Keyframe.intensity a)
                          * ((h1 - Keyframe.hour a)
                             / (Keyframe.hour b - Keyframe.hour a)))
                       (Light.position sun)));
      [reflexivity | exact Hm | reflexivity | ].
    intros a2 b2. unfold interpolated, set_glare_window, updateGlare.
    cbn -[Qdiv Color.setHex]. rewrite !option_fmap_set_intensity.
    f_equal. rewrite <- !list_fmap_compose. apply list_fmap_ext.
    intros i m _. unfold Glare.set_intensity, Glare.set_camera. cbn.
    rewrite list_insert_insert_eq. reflexivity.
  - unfold updateDayNightCycleAt in E1. rewrite Hm in E1. injection E1 as <-.
    unfold updateDayNightCycleAt. cbn. rewrite Hm. cbn. f_equal.
    unfold updateGlare. cbn. f_equal.
    rewrite <- list_fmap_compose. apply list_fmap_ext. intros i m _. reflexivity.
Qed.

Lemma frame_update_memoryless_witness :
  exists s1,
    update (Date.mk 6 0) (Vector3.mk 0 3 5) (setupLights new) = Done s1 /\
    update (Date.mk 12 0) (Vector3.mk 1 2 3) s1
    = update (Date.mk 12 0) (Vector3.mk 1 2 3) (setupLights new).
Proof.
  destruct (update (Date.mk 6 0) (Vector3.mk 0 3 5) (setupLights new))
    as [s1| |] eqn:E; [ | vm_compute in E; discriminate | vm_compute in E; discriminate ].
  exists s1. split; [reflexivity|].
  apply (frame_update_memoryless (Date.mk 6 0) (Date.mk 12 0) (Vector3.mk 0 3 5)).
  exact E.
Defined.

(** X6.  The two steps of the frame update commute: refreshing the camera
    uniforms first and running the day/night step second gives the same
    outcome as [update], which runs them the other way round. *)
Theorem frame_steps_commute :
  forall (now : Date.t) (cameraPosition : Vector3.t) (s : t),
    updateDayNightCycle now (updateGlare cameraPosition s)
    = update now cameraPosition s.
Proof.
  intros now cam s. unfold update, updateDayNightCycle.
  generalize (hourOf now). intros hour.
  destruct (Lights.main (lights s)) as [sun|] eqn:Hm.
  - destruct (findInterval_cases (dayNightKeyframes s) hour)
      as [(a & b & Hf) | [(x & Hf) | (x & Hf)]].
    + destruct (Qeq_bool (Keyframe.hour b - Keyframe.hour a) 0) eqn:Hspan.
      * unfold updateDayNightCycleAt. cbn [updateGlare lights dayNightKeyframes].
        rewrite Hm, Hf, Hspan. reflexivity.
      * apply Qeq_bool_false in Hspan.
        rewrite (updateDayNightCycleAt_interval hour s sun a b Hm Hf Hspan).
        rewrite (updateDayNightCycleAt_interval hour (updateGlare cam s) sun a b);
          [ | exact Hm | exact Hf | exact Hspan].
        cbn [mbind outcome_bind obind mret outcome_ret]. f_equal.
        unfold interpolated, set_glare_window, updateGlare.
        cbn -[Qdiv Color.setHex]. f_equal.
        rewrite <- !list_fmap_compose. apply list_fmap_ext. intros i m _. reflexivity.
    + unfold updateDayNightCycleAt. cbn [updateGlare lights dayNightKeyframes].
      rewrite Hm, Hf. reflexivity.
    + unfold updateDayNightCycleAt. cbn [updateGlare lights dayNightKeyframes].
      rewrite Hm, Hf. destruct x; reflexivity.
  - unfold updateDayNightCycleAt. cbn. rewrite Hm. reflexivity.
Qed.
End LightingExtras.

(** ** The interaction manager in the application *)

Section HandlerInvariants.
Import Interaction Portfolio3D.

(** A property kept by each handler is kept along every run. *)
Variable P : t -> Prop.
Hypothesis P_startHintTimer : forall w, P w -> P (startHintTimer w).
Hypothesis P_hideHint : forall w, P w -> P (hideHint w).
Hypothesis P_showHint : forall w, P w -> P (showHint w).
Hypothesis P_resetCamera : forall w, P w -> P (resetCamera w).
Hypothesis P_zoomToObject : forall o w, P w -> P (zoomToObject o w).
Hypothesis P_set_timers : forall h tm n w, P w -> P (set_timers h tm n w).
Hypothesis P_tick : forall dt w, P w -> P (tick dt w).

Lemma preserved_handle e w : afterWiring e -> P w -> P (handle w e).
Proof.
  intros He H. destruct e as [pass objs|hit| |id|dt]; cbn [handle]; [destruct He|..].
  - unfold onMouseClick. destruct hit as [o|].
    + pose proof (P_startHintTimer _ (P_hideHint _ H)) as H1.
      destruct (currentZoomedObject (startHintTimer (hideHint w))) as [z|].
      * destruct (Object3D.same o z);
          [apply P_resetCamera | apply P_zoomToObject]; exact H1.
      * apply P_zoomToObject, H1.
    + destruct (currentZoomedObject w); [apply P_resetCamera|]; exact H.
  - unfold onEscape. destruct (currentZoomedObject w); [apply P_resetCamera|]; exact H.
  - unfold fireTimer. destruct (timers w !! id) as [tm|]; [|exact H].
    destruct (callback tm). apply P_showHint, P_set_timers, H.
  - apply P_tick, H.
Qed.

Lemma preserved_run es w : Forall afterWiring es -> P w -> P (run w es).
Proof.
  intros Hes. revert w. induction Hes as [|e es He _ IH]; intros w H; [exact H|].
  cbn. apply IH, preserved_handle; assumption.
Qed.
End HandlerInvariants.

Section FieldInvariants.
Import Interaction Portfolio3D.

(** A property that does not look at the tween list is kept by every
    handler as soon as the writes of the manager keep it. *)
Variable P : t -> Prop.
Hypothesis P_setProp : forall p v w, P w -> P (setProp p v w).
Hypothesis P_set_tweens : forall l w, P w -> P (set_tweens l w).
Hypothesis P_set_timers : forall h tm n w, P w -> P (set_timers h tm n w).
Hypothesis P_showHint : forall w, P w -> P (showHint w).
Hypothesis P_complete : forall c w, P w -> P (complete c w).
Hypothesis P_zoomToObject : forall o w, P w -> P (zoomToObject o w).

Lemma field_writeProps fin ratio vars starts w :
  P w -> P (writeProps fin ratio vars starts w).
Proof.
  revert starts w. induction vars as [|[p e] vars IH]; intros starts w H; [exact H|].
  destruct starts as [|s0 starts]; [exact H|]. cbn. apply IH, P_setProp, H.
Qed.

Lemma field_renderAll dt tws w : P w -> P (snd (renderAll dt tws w)).
Proof.
  revert w. induction tws as [|tw rest IH]; intros w H; [exact H|].
  rewrite renderAll_cons. cbn [snd]. apply IH. unfold renderTween.
  destruct (Qle_bool (duration tw) (time tw + dt)); cbn [snd].
  - apply P_complete, field_writeProps, H.
  - apply field_writeProps, H.
Qed.

Lemma field_tick dt w : P w -> P (tick dt w).
Proof.
  intros H. rewrite tick_eq. apply P_set_tweens, field_renderAll, P_set_tweens, H.
Qed.

Lemma field_startHintTimer w : P w -> P (startHintTimer w).
Proof.
  intros H. unfold startHintTimer, clearTimeout, setTimeout.
  destruct (hintTimer w); cbn; repeat apply P_set_timers; exact H.
Qed.

Lemma field_hideHint w : P w -> P (hideHint w).
Proof.
  intros H. unfold hideHint, gsap_to.
  destruct (outlinePass w), (hintActive w); try exact H. apply P_set_tweens, H.
Qed.

Lemma field_resetCamera w : P w -> P (resetCamera w).
Proof.
  intros H. unfold resetCamera, gsap_to.
  destruct (currentZoomedObject w); [|exact H]. repeat apply P_set_tweens. exact H.
Qed.

Lemma field_run es w : Forall afterWiring es -> P w -> P (run w es).
Proof.
  apply preserved_run;
    auto using field_startHintTimer, field_hideHint, field_resetCamera, field_tick.
Qed.

Lemma field_handle e w : afterWiring e -> P w -> P (handle w e).
Proof.
  apply preserved_handle;
    auto using field_startHintTimer, field_hideHint, field_resetCamera, field_tick.
Qed.
End FieldInvariants.

Section ManagerExtras.
Import Interaction Portfolio3D.

Lemma leavesHint_no_edge_tweens w :
  Forall leavesHint (tweens w) -> tweensOf EdgeStrength w = [].
Proof.
  unfold tweensOf. induction 1 as [|tw l [Ha _] _ IH]; [reflexivity|].
  cbn. rewrite Ha. exact IH.
Qed.

Lemma unwired_same w w' :
  outlinePass w' = outlinePass w -> hintActive w' = hintActive w ->
  tweens w' = tweens w -> unwired w -> unwired w'.
Proof. unfold unwired. intros -> -> ->. tauto. Qed.

Lemma unwired_grow w w' :
  (exists later, tweens w' = tweens w ++ later /\ Forall leavesHint later) /\
  outlinePass w' = outlinePass w /\ hintActive w' = hintActive w ->
  unwired w -> unwired w'.
Proof.
  intros ((later & Ht & Hl) & Hp & Ha) (H1 & H2 & H3).
  split; [rewrite Hp; exact H1|]. split; [rewrite Ha; exact H2|].
  rewrite Ht. apply Forall_app. split; assumption.
Qed.

Lemma unwired_run es w : Forall afterWiring es -> unwired w -> unwired (run w es).
Proof.
  apply preserved_run.
  - intros w0. destruct (startHintTimer_fields w0) as (E1 & E2 & E3 & _).
    apply unwired_same; assumption.
  - intros w0 H. unfold hideHint. destruct H as (E & H). rewrite E. split; assumption.
  - intros w0 H. unfold showHint. destruct H as (E & H). rewrite E. split; assumption.
  - intros w0. apply unwired_grow, resetCamera_fields.
  - intros o w0. apply unwired_grow, zoomToObject_fields.
  - intros h tm n w0. apply unwired_same; reflexivity.
  - intros dt w0 (H1 & H2 & H3). rewrite tick_eq.
    destruct (renderAll_leaves dt (tweens w0) (set_tweens [] w0) H3) as (E1 & E2 & F).
    split; [|split]; cbn [outlinePass hintActive tweens set_tweens].
    + rewrite E1. exact H1.
    + rewrite E2. exact H2.
    + exact F.
Qed.

(** X7.  When the page lacks the effect composer, the render pass, the
    bloom pass or the outline pass, the scene manager has no outline pass to
    hand over, the manager stays unwired, and whatever the user and the
    timers do the hint never activates: no tween on [edgeStrength] is ever
    registered and [hintActive] stays false. *)
Theorem hint_needs_outline_pass :
  forall (three : SceneManager.addons) (cam tgt : Vector3.t)
         (objs : list Object3D.t) (es : list event),
    SceneManager.hasEffectComposer three && SceneManager.hasRenderPass three
    && SceneManager.hasUnrealBloomPass three && SceneManager.hasOutlinePass three = false ->
    Forall afterWiring es ->
    outlinePass
      (run (wireHint (SceneManager.setupPostProcessing three SceneManager.new) objs
                     (new cam tgt)) es) = None /\
    hintActive
      (run (wireHint (SceneManager.setupPostProcessing three SceneManager.new) objs
                     (new cam tgt)) es) = false /\
    tweensOf EdgeStrength
      (run (wireHint (SceneManager.setupPostProcessing three SceneManager.new) objs
                     (new cam tgt)) es) = [].
Proof.
  intros three cam tgt objs es Hmiss Hes.
  assert (Hw : wireHint (SceneManager.setupPostProcessing three SceneManager.new) objs
                        (new cam tgt) = new cam tgt).
  { unfold wireHint, SceneManager.getOutlinePass, SceneManager.setupPostProcessing.
    destruct three as [[] [] [] []]; cbn in *; try reflexivity; discriminate. }
  rewrite Hw.
  destruct (unwired_run es (new cam tgt) Hes) as (H1 & H2 & H3).
  { repeat split. constructor. }
  split; [exact H1|]. split; [exact H2|]. apply leavesHint_no_edge_tweens, H3.
Qed.

Lemma hint_needs_outline_pass_witness :
  hintActive
    (run (wireHint (SceneManager.setupPostProcessing
                      (SceneManager.mkAddons true true true false) SceneManager.new)
                   [mug] (new (Vector3.mk 0 3 5) (Vector3.mk 0 2 0)))
         [ Click (Some mug); TimerDue 1%positive; Tick 2; Escape; Tick 2;
           TimerDue 2%positive; Tick 3 ]) = false.
Proof.
  apply (hint_needs_outline_pass (SceneManager.mkAddons true true true false)
           (Vector3.mk 0 3 5) (Vector3.mk 0 2 0) [mug]
           [ Click (Some mug); TimerDue 1%positive; Tick 2; Escape; Tick 2;
             TimerDue 2%positive; Tick 3 ]).
  - reflexivity.
  - repeat constructor.
Defined.

Lemma passInv_same pass objs w w' :
  outlinePass w' = outlinePass w -> hintActive w' = hintActive w ->
  passInv pass objs w -> passInv pass objs w'.
Proof. unfold passInv. intros -> ->. tauto. Qed.

Lemma passInv_run pass objs es w :
  Forall afterWiring es -> passInv pass objs w -> passInv pass objs (run w es).
Proof.
  apply field_run.
  - intros p v w0 (q & H1 & H2 & H3 & H4 & H5 & H6). destruct p;
      try (exists q; repeat split; assumption).
    exists (OutlinePass.set_edgeStrength v q). cbn. rewrite H1. cbn. repeat split; assumption.
  - intros l w0. apply passInv_same; reflexivity.
  - intros h tm n w0. apply passInv_same; reflexivity.
  - intros w0 (q & H1 & H2 & H3 & H4 & H5 & H6). unfold showHint. rewrite H1.
    destruct (currentZoomedObject w0); [exists q; repeat split; assumption|].
    eexists. cbn. split; [reflexivity|]. cbn. repeat split; assumption.
  - intros c w0 (q & H1 & H2 & H3 & H4 & H5 & H6). destruct c; cbn [complete].
    + exists q. repeat split; assumption.
    + eexists. cbn. rewrite H1. cbn. split; [reflexivity|]. cbn. repeat split; assumption.
    + destruct (startHintTimer_fields (set_zoom true None w0)) as (_ & E2 & E3 & _).
      exists q. rewrite E2, E3. cbn. repeat split; assumption.
  - intros o w0. apply passInv_same; reflexivity.
Qed.

(** X8.  After the one wiring of a disabled pass, along every run of user
    and host events the manager still holds that pass, with the list of
    target objects it was wired with and its overlay material, and the
    pass is enabled exactly when [hintActive] is set. *)
Theorem wired_pass_enabled_iff_hint_active :
  forall (pass : OutlinePass.t) (objs : list Object3D.t) (cam tgt : Vector3.t)
         (es : list event),
    OutlinePass.enabled pass = false ->
    Forall afterWiring es ->
    exists q,
      outlinePass (run (new cam tgt) (Wire pass objs :: es)) = Some q /\
      OutlinePass.enabled q = hintActive (run (new cam tgt) (Wire pass objs :: es)) /\
      OutlinePass.selectedObjects q = objs /\
      OutlinePass.overlayMaterial q = OutlinePass.overlayMaterial pass.
Proof.
  intros pass objs cam tgt es Hen Hes.
  destruct (passInv_run pass objs es (handle (new cam tgt) (Wire pass objs)) Hes)
    as (q & H1 & H2 & H3 & H4 & _).
  - eexists. cbn. split; [reflexivity|]. cbn. repeat split. exact Hen.
  - exists q. cbn [run fold_left]. auto.
Qed.

Lemma wired_pass_enabled_iff_hint_active_witness :
  exists q,
    outlinePass midFadeIn = Some q /\ OutlinePass.enabled q = hintActive midFadeIn.
Proof.
  destruct (wired_pass_enabled_iff_hint_active SceneManager.configuredOutlinePass [mug]
              (Vector3.mk 0 3 5) (Vector3.mk 0 2 0) [TimerDue 1%positive; Tick 0.5])
    as (q & H1 & H2 & _).
  - reflexivity.
  - repeat constructor.
  - exists q. split; [exact H1 | exact H2].
Defined.

Lemma controlsFollowZoom_same w w' :
  controls_enabled w' = controls_enabled w ->
  currentZoomedObject w' = currentZoomedObject w ->
  controlsFollowZoom w -> controlsFollowZoom w'.
Proof. unfold controlsFollowZoom. intros -> ->. tauto. Qed.

Lemma controlsFollowZoom_handle e w :
  controlsFollowZoom w -> controlsFollowZoom (handle w e).
Proof.
  assert (Hsp : forall p v w0, controlsFollowZoom w0 -> controlsFollowZoom (setProp p v w0)).
  { intros p v w0. apply controlsFollowZoom_same; destruct p; reflexivity. }
  assert (Htw : forall l w0, controlsFollowZoom w0 -> controlsFollowZoom (set_tweens l w0)).
  { intros l w0. apply controlsFollowZoom_same; reflexivity. }
  assert (Htm : forall h tm n w0,
             controlsFollowZoom w0 -> controlsFollowZoom (set_timers h tm n w0)).
  { intros h tm n w0. apply controlsFollowZoom_same; reflexivity. }
  assert (Hsh : forall w0, controlsFollowZoom w0 -> controlsFollowZoom (showHint w0)).
  { intros w0 H0. unfold showHint. destruct (outlinePass w0); [|exact H0].
    destruct (currentZoomedObject w0) eqn:E; [exact H0|]. exact H0. }
  assert (Hzo : forall o w0, controlsFollowZoom w0 -> controlsFollowZoom (zoomToObject o w0)).
  { intros o w0 _. reflexivity. }
  assert (Hco : forall c w0, controlsFollowZoom w0 -> controlsFollowZoom (complete c w0)).
  { intros c w0 H. destruct c; cbn [complete]; [exact H | exact H |].
    apply (field_startHintTimer controlsFollowZoom Htm). reflexivity. }
  intros H. destruct e as [pass objs|hit| |id|dt].
  - cbn [handle]. unfold setOutlinePass.
    apply (field_startHintTimer controlsFollowZoom Htm). exact H.
  - apply (field_handle controlsFollowZoom); auto. exact I.
  - apply (field_handle controlsFollowZoom); auto. exact I.
  - apply (field_handle controlsFollowZoom); auto. exact I.
  - apply (field_handle controlsFollowZoom); auto. exact I.
Qed.

(** X9.  Along every run from the constructor, re-wiring included, the
    orbit controls are enabled exactly when no object is zoomed. *)
Theorem controls_enabled_iff_not_zoomed :
  forall (cam tgt : Vector3.t) (es : list event),
    controls_enabled (run (new cam tgt) es)
    = match currentZoomedObject (run (new cam tgt) es) with
      | None => true
      | Some _ => false
      end.
Proof.
  intros cam tgt es.
  assert (H : forall w, controlsFollowZoom w -> controlsFollowZoom (run w es)).
  { induction es as [|e es IH]; intros w Hw; [exact Hw|].
    cbn. apply IH, controlsFollowZoom_handle, Hw. }
  apply (H (new cam tgt)). reflexivity.
Qed.
End ManagerExtras.

(** ** The fade-in of the hint *)

Section HintFadeIn.
Import Interaction Portfolio3D.








End HintFadeIn.

(** ** Camera moves *)

Section CameraMoves.
Import Interaction Portfolio3D.














End CameraMoves.

(** ** The hover light *)

Section HoverExtras.
Import Hover.

Lemma max_cases a b : (a <= b /\ max a b = b) \/ (b <= a /\ max a b = a).
Proof.
  unfold max. destruct (Qlt_bool a b) eqn:E.
  - left. apply Qlt_bool_iff in E. split; [qlra | reflexivity].
  - right. split; [|reflexivity].
    destruct (Qlt_le_dec a b) as [H|H]; [|exact H].
    apply Qlt_bool_iff in H. congruence.
Qed.

Lemma min_cases a b : (a <= b /\ min a b = a) \/ (b <= a /\ min a b = b).
Proof.
  unfold min. destruct (Qlt_bool b a) eqn:E.
  - right. apply Qlt_bool_iff in E. split; [qlra | reflexivity].
  - left. split; [|reflexivity].
    destruct (Qlt_le_dec b a) as [H|H]; [|exact H].
    apply Qlt_bool_iff in H. congruence.
Qed.

Lemma sized_guard (w h : Q) :
  ~ w == 0 -> ~ h == 0 -> Qeq_bool w 0 || Qeq_bool h 0 = false.
Proof.
  intros Hw Hh. apply Qeq_bool_false in Hw, Hh. rewrite Hw, Hh. reflexivity.
Qed.

Lemma updateHoverLight_inv o p h : inv h -> inv (updateHoverLight o p h).
Proof.
  intros (H0 & H1 & Hv & _). unfold inv, updateHoverLight.
  cbn [intensity visible hoveredObject].
  destruct (min_cases 1.0 (intensity h + 0.1)) as [[Hle ->]|[Hle ->]];
    repeat split; try assumption; try qlra; intros _; qlra.
Qed.

Lemma hideHoverLight_inv h : inv h -> inv (hideHoverLight h).
Proof.
  intros (H0 & H1 & Hv & Ho). unfold hideHoverLight.
  destruct (Qlt_bool 0 (intensity h)) eqn:Epos; [|repeat split; assumption].
  apply Qlt_bool_iff in Epos.
  destruct (Qeq_bool (max 0 (intensity h - 0.1)) 0) eqn:Ez.
  - apply Qeq_bool_iff in Ez. unfold inv. cbn [intensity visible hoveredObject].
    repeat split; try qlra. intros [? Hx]. discriminate Hx.
  - apply Qeq_bool_false in Ez. unfold inv. cbn [intensity visible hoveredObject].
    destruct (max_cases 0 (intensity h - 0.1)) as [[Hle E]|[Hle E]];
      rewrite E in *.
    + repeat split; try assumption; qlra.
    + exfalso. apply Ez. reflexivity.
Qed.

Lemma handleMove_inv m h :
  sized m -> inv h -> exists h', handleMove m h = Done h' /\ inv h'.
Proof.
  intros [Hw Hh] Hi. unfold handleMove, onMouseMove.
  rewrite (sized_guard _ _ Hw Hh).
  destruct (zoomed m); [eexists; split; [reflexivity | exact Hi]|].
  destruct (target m) as [|[o|] p]; eexists; (split; [reflexivity|]).
  - apply hideHoverLight_inv. exact Hi.
  - apply updateHoverLight_inv. exact Hi.
  - exact Hi.
Qed.

Lemma moves_inv ms : forall h,
  Forall sized ms -> inv h -> exists h', moves ms h = Done h' /\ inv h'.
Proof.
  induction ms as [|m ms IH]; intros h Hs Hi.
  - exists h. split; [reflexivity | exact Hi].
  - inversion Hs as [|? ? Hm Hrest]; subst.
    destruct (handleMove_inv m h Hm Hi) as (h1 & E1 & Hi1).
    destruct (IH h1 Hrest Hi1) as (h' & E' & Hi').
    exists h'. split; [|exact Hi'].
    cbn [moves]. rewrite E1. exact E'.
Qed.

Lemma moves_app ms1 ms2 h h1 :
  moves ms1 h = Done h1 -> moves (ms1 ++ ms2) h = moves ms2 h1.
Proof.
  revert h. induction ms1 as [|m ms1 IH]; intros h E.
  - cbn in E. injection E as ->. reflexivity.
  - cbn [moves app] in *. destruct (handleMove m h) as [h0| |] eqn:E0;
      try discriminate E.
    cbn in *. apply IH. exact E.
Qed.

Lemma new_inv scene : inv (new scene).
Proof.
  unfold inv, new. cbn [intensity visible hoveredObject].
  repeat split; try qlra. intros [? Hx]. discriminate Hx.
Qed.

Lemma leaving_sized m : leaving m -> sized m.
Proof. intros (_ & _ & Hw & Hh). split; assumption. Qed.

Lemma pointing_sized o p m : pointing o p m -> sized m.
Proof. intros (_ & _ & Hw & Hh). split; assumption. Qed.

Lemma leaving_step m h :
  leaving m -> inv h ->
  exists h', handleMove m h = Done h' /\ inv h' /\
             (intensity h' == 0 \/ intensity h' <= intensity h - 0.1).
Proof.
  intros (Hz & Ht & Hw & Hh) Hi. unfold handleMove, onMouseMove.
  rewrite (sized_guard _ _ Hw Hh), Hz, Ht.
  eexists. split; [reflexivity|]. split; [apply hideHoverLight_inv; exact Hi|].
  destruct Hi as (H0 & H1 & _). unfold hideHoverLight, set_cursor.
  cbn [intensity visible hoveredObject mouse position inScene hasScene cursor].
  destruct (Qlt_bool 0 (intensity h)) eqn:Epos.
  - assert (Hi' : forall b : bool,
      intensity (if b
        then mk ((clientX m / innerWidth m) * 2 - 1, - (clientY m / innerHeight m) * 2 + 1)
                (max 0 (intensity h - 0.1)) false (position h) (inScene h) (hasScene h)
                None "default"
        else mk ((clientX m / innerWidth m) * 2 - 1, - (clientY m / innerHeight m) * 2 + 1)
                (max 0 (intensity h - 0.1)) (visible h) (position h) (inScene h)
                (hasScene h) (hoveredObject h) "default")
      = max 0 (intensity h - 0.1)) by (intros []; reflexivity).
    rewrite Hi'.
    destruct (max_cases 0 (intensity h - 0.1)) as [[Hle ->]|[Hle ->]].
    + right. qlra.
    + left. reflexivity.
  - cbn [intensity]. left.
    destruct (Qlt_le_dec 0 (intensity h)) as [H|H].
    + apply Qlt_bool_iff in H. congruence.
    + qlra.
Qed.

Lemma leaving_steps ms : forall h,
  Forall leaving ms -> inv h ->
  exists h', moves ms h = Done h' /\ inv h' /\
             (intensity h' == 0 \/
              intensity h' <= intensity h - inject_Z (Z.of_nat (length ms)) * 0.1).
Proof.
  induction ms as [|m ms IH]; intros h Hl Hi.
  - exists h. split; [reflexivity|]. split; [exact Hi|]. right.
    cbn [length]. change (Z.of_nat 0) with 0%Z. unfold inject_Z. qlra.
  - inversion Hl as [|? ? Hm Hrest]; subst.
    destruct (leaving_step m h Hm Hi) as (h1 & E1 & Hi1 & Hd1).
    destruct (IH h1 Hrest Hi1) as (h' & E' & Hi' & Hd').
    exists h'. split; [cbn [moves]; rewrite E1; exact E'|]. split; [exact Hi'|].
    assert (Hn : 0 <= inject_Z (Z.of_nat (length ms))).
    { change 0 with (inject_Z 0). rewrite <- Zle_Qle. lia. }
    assert (HS : inject_Z (Z.of_nat (length (m :: ms)))
                 == inject_Z (Z.of_nat (length ms)) + 1).
    { cbn [length]. rewrite Nat2Z.inj_succ. unfold Z.succ.
      rewrite inject_Z_plus. reflexivity. }
    destruct Hi' as (H0' & _).
    destruct Hd' as [Hd'|Hd']; [left; exact Hd'|].
    destruct Hd1 as [Hd1|Hd1].
    + left. Lqa.nra.
    + right. rewrite HS. Lqa.nra.
Qed.

Lemma pointing_step o p m h :
  pointing o p m -> inv h ->
  exists h', handleMove m h = Done h' /\ inv h' /\
             hoveredObject h' = Some o /\
             position h' = Vector3.mk (Vector3.x p) (Vector3.y p + 0.3) (Vector3.z p) /\
             inScene h' = inScene h || hasScene h /\
             hasScene h' = hasScene h /\
             (intensity h' == 1 \/ intensity h' == intensity h + 0.1).
Proof.
  intros (Hz & Ht & Hw & Hh) Hi. unfold handleMove, onMouseMove.
  rewrite (sized_guard _ _ Hw Hh), Hz, Ht.
  eexists. split; [reflexivity|]. split; [apply updateHoverLight_inv; exact Hi|].
  unfold updateHoverLight, set_cursor.
  cbn [intensity visible hoveredObject mouse position inScene hasScene cursor].
  repeat split.
  destruct (min_cases 1.0 (intensity h + 0.1)) as [[Hle ->]|[Hle ->]].
  - left. reflexivity.
  - right. reflexivity.
Qed.

Lemma moves_hasScene ms : forall a b,
  moves ms a = Done b -> hasScene b = hasScene a.
Proof.
  induction ms as [|m ms IH]; intros a b Eab.
  - cbn in Eab. injection Eab as ->. reflexivity.
  - cbn [moves] in Eab. destruct (handleMove m a) as [a1| |] eqn:Ea;
      try discriminate Eab.
    cbn in Eab. rewrite (IH _ _ Eab).
    unfold handleMove, onMouseMove in Ea.
    destruct (Qeq_bool (innerWidth m) 0 || Qeq_bool (innerHeight m) 0);
      [discriminate Ea|].
    destruct (zoomed m); [injection Ea as <-; reflexivity|].
    destruct (target m) as [|[?|] ?]; injection Ea as <-;
      try reflexivity.
    unfold hideHoverLight, set_cursor.
    cbn [intensity visible hoveredObject mouse position inScene hasScene cursor].
    destruct (Qlt_bool 0 (intensity a)); [|reflexivity].
    destruct (Qeq_bool _ 0); reflexivity.
Qed.

(** X13. Whatever the pointer does in a window that has a size, the hover
    light's intensity stays between 0 and 1, an object counts as hovered
    only while that intensity is positive, and the light is never made
    visible: it is created hidden and no handler shows it. *)
Theorem hover_light_never_shown (scene : bool) (ms : list move) :
  Forall sized ms ->
  exists h,
    moves ms (new scene) = Done h /\
    0 <= intensity h /\ intensity h <= 1 /\
    visible h = false /\
    (is_Some (hoveredObject h) -> 0 < intensity h).
Proof.
  intros Hs. destruct (moves_inv ms (new scene) Hs (new_inv scene)) as (h & E & Hi).
  exists h. split; [exact E | exact Hi].
Qed.

Lemma hover_light_never_shown_witness :
  exists h,
    moves [overMug; overMug; overNothing] (new true) = Done h /\
    0 <= intensity h /\ intensity h <= 1 /\
    visible h = false /\
    (is_Some (hoveredObject h) -> 0 < intensity h).
Proof.
  apply (hover_light_never_shown true [overMug; overMug; overNothing]).
  repeat constructor; intros H; vm_compute in H; discriminate H.
Defined.

(** X14. Once the pointer has left the objects, eleven further moves over
    empty space (unzoomed) bring the hover light's intensity back to 0 and
    clear the hovered object, whatever happened before. *)
Theorem hover_light_fades_out (scene : bool) (before after : list move) :
  Forall sized before ->
  Forall leaving after ->
  (11 <= length after)%nat ->
  exists h,
    moves (before ++ after) (new scene) = Done h /\
    intensity h == 0 /\ hoveredObject h = None.
Proof.
  intros Hb Ha Hn.
  destruct (moves_inv before (new scene) Hb (new_inv scene)) as (h1 & E1 & Hi1).
  destruct (leaving_steps after h1 Ha Hi1) as (h & E & Hi & Hd).
  exists h. split; [rewrite (moves_app _ _ _ _ E1); exact E|].
  assert (Hz : intensity h == 0).
  { destruct Hd as [Hd|Hd]; [exact Hd|].
    destruct Hi1 as (_ & H1 & _). destruct Hi as (H0 & _).
    assert (Hk : 11 <= inject_Z (Z.of_nat (length after))).
    { change 11 with (inject_Z 11). rewrite <- Zle_Qle. lia. }
    qlra. }
  split; [exact Hz|].
  destruct Hi as (_ & _ & _ & Ho).
  destruct (hoveredObject h) as [o|]; [|reflexivity].
  exfalso. assert (0 < intensity h) by (apply Ho; eexists; reflexivity). qlra.
Qed.

Lemma hover_light_fades_out_witness :
  exists h,
    moves ([overMug; overMug] ++ replicate 11 overNothing) (new true) = Done h /\
    intensity h == 0 /\ hoveredObject h = None.
Proof.
  apply (hover_light_fades_out true [overMug; overMug] (replicate 11 overNothing)).
  - repeat constructor; intros H; vm_compute in H; discriminate H.
  - apply Forall_replicate.
    repeat split; intros H; vm_compute in H; discriminate H.
  - rewrite length_replicate. lia.
Defined.

(** X15. A move over an interactive object, unzoomed, makes that object the
    hovered one, puts the hover light 0.3 above the hit point, adds the
    light to the scene when the manager has one, and raises the intensity
    by 0.1 up to the cap 1; it never lowers it. *)
Theorem hover_move_tracks_object (scene : bool) (before : list move)
        (o : Object3D.t) (p : Vector3.t) (m : move) :
  Forall sized before ->
  pointing o p m ->
  exists h0 h,
    moves before (new scene) = Done h0 /\
    moves (before ++ [m]) (new scene) = Done h /\
    hoveredObject h = Some o /\
    position h = Vector3.mk (Vector3.x p) (Vector3.y p + 0.3) (Vector3.z p) /\
    inScene h = inScene h0 || scene /\
    intensity h0 <= intensity h /\
    (intensity h == 1 \/ intensity h == intensity h0 + 0.1).
Proof.
  intros Hb Hp.
  destruct (moves_inv before (new scene) Hb (new_inv scene)) as (h0 & E0 & Hi0).
  destruct (pointing_step o p m h0 Hp Hi0) as (h & E & Hi & Ho & Hpos & Hin & Hsc & Hd).
  assert (Hscene : hasScene h0 = scene)
    by (rewrite (moves_hasScene _ _ _ E0); reflexivity).
  exists h0, h. split; [exact E0|].
  split; [rewrite (moves_app _ _ _ _ E0); cbn [moves]; rewrite E; reflexivity|].
  split; [exact Ho|]. split; [exact Hpos|].
  split; [rewrite Hin, Hscene; reflexivity|].
  destruct Hi0 as (_ & H1 & _).
  split; [destruct Hd; qlra | exact Hd].
Qed.

Lemma hover_move_tracks_object_witness :
  exists h0 h,
    moves [overNothing] (new true) = Done h0 /\
    moves ([overNothing] ++ [overMug]) (new true) = Done h /\
    hoveredObject h = Some Interaction.mug /\
    position h = Vector3.mk (Vector3.x (Vector3.mk 1 1 0))
                            (Vector3.y (Vector3.mk 1 1 0) + 0.3)
                            (Vector3.z (Vector3.mk 1 1 0)) /\
    inScene h = inScene h0 || true /\
    intensity h0 <= intensity h /\
    (intensity h == 1 \/ intensity h == intensity h0 + 0.1).
Proof.
  apply (hover_move_tracks_object true [overNothing] Interaction.mug
           (Vector3.mk 1 1 0) overMug).
  - repeat constructor; intros H; vm_compute in H; discriminate H.
  - repeat split; intros H; vm_compute in H; discriminate H.
Defined.

End HoverExtras.

(** ** The scroll of the monitor *)

Section ScrollExtras.
Import Scroll.

Lemma scroll_clamp_range (q : Q) :
  0 <= Hover.max 0 (Hover.min q 2000) /\ Hover.max 0 (Hover.min q 2000) <= 2000.
Proof.
  destruct (max_cases 0 (Hover.min q 2000)) as [[H ->]|[H ->]];
    destruct (min_cases q 2000) as [[H' E]|[H' E]]; rewrite E in *; split; qlra.
Qed.

Lemma onMouseWheel_inv deltaY zoomed under s :
  inv s -> inv (fst (onMouseWheel deltaY zoomed under s)).
Proof.
  intros (H0 & H1 & Hm). unfold onMouseWheel.
  destruct zoomed as [z|].
  - destruct (isMonitor z); cbn [fst monitorScrollOffset monitorMesh].
    + split; [apply scroll_clamp_range|]. split; [apply scroll_clamp_range | exact Hm].
    + repeat split; assumption.
  - destruct under as [o|].
    + destruct (isMonitor o) eqn:Eo; cbn [fst monitorScrollOffset monitorMesh].
      * split; [apply scroll_clamp_range|]. split; [apply scroll_clamp_range|].
        intros o' Ho'. injection Ho' as <-. exact Eo.
      * repeat split; assumption.
    + cbn [fst]. repeat split; assumption.
Qed.

Lemma onZoom_inv o s : inv s -> inv (onZoom o s).
Proof.
  intros (H0 & H1 & Hm). unfold onZoom.
  destruct (isMonitor o) eqn:Eo; [|repeat split; assumption].
  unfold inv. cbn [monitorScrollOffset monitorMesh].
  repeat split; try assumption. intros o' Ho'. injection Ho' as <-. exact Eo.
Qed.

Lemma run_inv es : forall s, inv s -> inv (run s es).
Proof.
  induction es as [|e es IH]; intros s Hs; [exact Hs|].
  cbn [run fold_left]. apply IH. destruct e as [d z u|o]; cbn [handle].
  - apply onMouseWheel_inv. exact Hs.
  - apply onZoom_inv. exact Hs.
Qed.

(** X16. Through any sequence of wheel events and zooms the monitor's
    scroll offset stays within 0 and 2000, and the mesh whose texture is
    redrawn is never anything but an object named monitor. *)
Theorem monitor_scroll_stays_in_range (es : list event) :
  0 <= monitorScrollOffset (run new es) /\
  monitorScrollOffset (run new es) <= 2000 /\
  forall o, monitorMesh (run new es) = Some o -> isMonitor o = true.
Proof.
  apply run_inv. unfold inv, new. cbn [monitorScrollOffset monitorMesh].
  repeat split; try qlra. intros o Ho. discriminate Ho.
Qed.

End ScrollExtras.

(** ** Text wrapping on a canvas *)

Section TextExtras.
Import Text.
Local Open Scope string_scope.

Lemma append_cons (c : Ascii.ascii) (a b : string) : String c a ++ b = String c (a ++ b).
Proof. reflexivity. Qed.

Lemma append_nil_r (s : string) : s ++ "" = s.
Proof.
  induction s as [|c s IH]; [reflexivity|]. rewrite append_cons, IH. reflexivity.
Qed.

Lemma append_assoc (a b c : string) : (a ++ b) ++ c = a ++ (b ++ c).
Proof.
  induction a as [|x a IH]; [reflexivity|]. rewrite !append_cons, IH. reflexivity.
Qed.

Lemma split_not_nil (s : string) : split s <> [].
Proof.
  induction s as [|c s IH]; [discriminate|]. cbn [split].
  destruct (Ascii.eqb c (Ascii.ascii_of_nat 32)); [discriminate|].
  destruct (split s); discriminate.
Qed.

Lemma concat_cons (sep x : string) (xs : list string) :
  xs <> [] -> String.concat sep (x :: xs) = x ++ sep ++ String.concat sep xs.
Proof. destruct xs; [congruence | reflexivity]. Qed.

Lemma split_concat (s : string) : String.concat " " (split s) = s.
Proof.
  induction s as [|c s IH]; [reflexivity|]. cbn [split].
  destruct (Ascii.eqb c (Ascii.ascii_of_nat 32)) eqn:E.
  - apply Ascii.eqb_eq in E. subst c.
    rewrite concat_cons by apply split_not_nil. rewrite IH. reflexivity.
  - destruct (split s) as [|w ws] eqn:Es; [exfalso; exact (split_not_nil s Es)|].
    destruct ws as [|w' ws].
    + cbn in *. rewrite IH. reflexivity.
    + rewrite concat_cons by discriminate.
      rewrite concat_cons in IH by discriminate.
      rewrite append_cons, IH. reflexivity.
Qed.

Lemma split_spaceFree (s : string) : Forall (fun w => spaceFree w = true) (split s).
Proof.
  induction s as [|c s IH]; [repeat constructor|]. cbn [split].
  destruct (Ascii.eqb c (Ascii.ascii_of_nat 32)) eqn:E.
  - constructor; [reflexivity | exact IH].
  - destruct (split s) as [|w ws]; [repeat constructor; cbn; rewrite E; reflexivity|].
    inversion IH as [|? ? Hw Hws]; subst.
    constructor; [|exact Hws]. cbn [spaceFree]. rewrite E, Hw. reflexivity.
Qed.

(** The words of a text, each followed by its space. *)
Lemma spaced_split (s : string) :
  joined ((fun w => w ++ " ") <$> split s) = s ++ " ".
Proof.
  induction s as [|c s IH]; [reflexivity|]. cbn [split].
  destruct (Ascii.eqb c (Ascii.ascii_of_nat 32)) eqn:E.
  - apply Ascii.eqb_eq in E. subst c.
    rewrite fmap_cons. unfold joined in *. cbn [fold_right].
    rewrite IH. reflexivity.
  - destruct (split s) as [|w ws] eqn:Es; [exfalso; exact (split_not_nil s Es)|].
    rewrite fmap_cons in *. unfold joined in *. cbn [fold_right] in *.
    rewrite !append_cons, <- IH. reflexivity.
Qed.

Lemma joined_app (l1 l2 : list string) : joined (l1 ++ l2)%list = joined l1 ++ joined l2.
Proof.
  unfold joined. induction l1 as [|a l1 IH]; [reflexivity|].
  cbn [app fold_right]. rewrite IH, append_assoc. reflexivity.
Qed.

Section Wrap.
Variable measure : string -> Q.
Variables x maxWidth lineHeight : Q.

Lemma wrapWords_cons word rest line currentY :
  wrapWords measure x maxWidth lineHeight (word :: rest) line currentY
  = if Qlt_bool maxWidth (measure ((line ++ word) ++ " ")) && nonEmpty line
    then
      let '(calls, line', y') :=
        wrapWords measure x maxWidth lineHeight rest (word ++ " ")
                  (currentY + lineHeight)%Q in
      ((line, x, currentY) :: calls, line', y')
    else wrapWords measure x maxWidth lineHeight rest ((line ++ word) ++ " ") currentY.
Proof. reflexivity. Qed.

Lemma wrapWords_content words : forall line currentY calls line' y',
  wrapWords measure x maxWidth lineHeight words line currentY = (calls, line', y') ->
  joined (lineOf <$> calls) ++ line'
  = line ++ joined ((fun w => w ++ " ") <$> words).
Proof.
  induction words as [|word rest IH]; intros line currentY calls line' y' E.
  - cbn in E. injection E as <- <- <-. cbn. rewrite append_nil_r. reflexivity.
  - rewrite wrapWords_cons in E.
    rewrite fmap_cons. unfold joined at 2. cbn [fold_right]. fold (joined ((fun w => w ++ " ") <$> rest)).
    destruct (Qlt_bool maxWidth (measure ((line ++ word) ++ " ")) && nonEmpty line).
    + destruct (wrapWords measure x maxWidth lineHeight rest (word ++ " ")
                          (currentY + lineHeight)%Q) as [[calls0 line0] y0] eqn:E0.
      injection E as <- <- <-.
      rewrite fmap_cons. unfold joined at 1. cbn [fold_right].
      fold (joined (lineOf <$> calls0)). cbn [lineOf fst].
      rewrite append_assoc. rewrite (IH _ _ _ _ _ E0). reflexivity.
    + rewrite (IH _ _ _ _ _ E). rewrite !append_assoc. reflexivity.
Qed.

Lemma wrapWords_layout words : forall line currentY calls line' y',
  wrapWords measure x maxWidth lineHeight words line currentY = (calls, line', y') ->
  (y' == currentY + inject_Z (Z.of_nat (length calls)) * lineHeight)%Q /\
  forall k c, calls !! k = Some c ->
    snd (fst c) = x /\
    (snd c == currentY + inject_Z (Z.of_nat k) * lineHeight)%Q.
Proof.
  induction words as [|word rest IH]; intros line currentY calls line' y' E.
  - cbn in E. injection E as <- <- <-. split.
    + cbn [length]. change (Z.of_nat 0) with 0%Z. unfold inject_Z. ring.
    + intros k c Hk. rewrite lookup_nil in Hk. discriminate Hk.
  - rewrite wrapWords_cons in E.
    destruct (Qlt_bool maxWidth (measure ((line ++ word) ++ " ")) && nonEmpty line).
    + destruct (wrapWords measure x maxWidth lineHeight rest (word ++ " ")
                          (currentY + lineHeight)%Q) as [[calls0 line0] y0] eqn:E0.
      injection E as <- <- <-.
      destruct (IH _ _ _ _ _ E0) as [Hy Hk]. split.
      * rewrite Hy. cbn [length]. rewrite Nat2Z.inj_succ. unfold Z.succ.
        rewrite inject_Z_plus. change (inject_Z 1) with 1%Q. ring.
      * intros [|k] c Hc.
        -- cbn in Hc. injection Hc as <-. cbn [fst snd]. split; [reflexivity|].
           change (Z.of_nat 0) with 0%Z. unfold inject_Z. ring.
        -- cbn in Hc. destruct (Hk k c Hc) as [Hx Hyk]. split; [exact Hx|].
           rewrite Hyk. rewrite Nat2Z.inj_succ. unfold Z.succ.
           rewrite inject_Z_plus. change (inject_Z 1) with 1%Q. ring.
    + exact (IH _ _ _ _ _ E).
Qed.

Lemma wrapWords_fit all words : forall line currentY calls line' y',
  (forall w, In w words -> In w all) ->
  line = "" \/ fits measure maxWidth all line ->
  wrapWords measure x maxWidth lineHeight words line currentY = (calls, line', y') ->
  Forall (fun c => fits measure maxWidth all (lineOf c) /\ nonEmpty (lineOf c) = true) calls /\
  ((words = [] /\ line' = line) \/ (fits measure maxWidth all line' /\ nonEmpty line' = true)).
Proof.
  induction words as [|word rest IH]; intros line currentY calls line' y' Hin Hl E.
  - cbn in E. injection E as <- <- <-. split; [constructor|]. left. split; reflexivity.
  - rewrite wrapWords_cons in E.
    assert (Hrest : forall w, In w rest -> In w all)
      by (intros w Hw; apply Hin; right; exact Hw).
    assert (Hword : In word all) by (apply Hin; left; reflexivity).
    assert (Hne : forall a b, nonEmpty ((a ++ b) ++ " ") = true).
    { intros a b. destruct a; [destruct b|]; reflexivity. }
    assert (Hne' : forall a, nonEmpty (a ++ " ") = true).
    { intros a. destruct a; reflexivity. }
    destruct (Qlt_bool maxWidth (measure ((line ++ word) ++ " "))) eqn:Ew;
      [destruct (nonEmpty line) eqn:En|]; cbn [andb] in E.
    + destruct (wrapWords measure x maxWidth lineHeight rest (word ++ " ")
                          (currentY + lineHeight)%Q) as [[calls0 line0] y0] eqn:E0.
      injection E as <- <- <-.
      assert (Hw : word ++ " " = "" \/ fits measure maxWidth all (word ++ " ")).
      { right. right. exists word. split; [exact Hword | reflexivity]. }
      destruct (IH _ _ _ _ _ Hrest Hw E0) as [Hc Hl0]. split.
      * constructor; [|exact Hc]. cbn [lineOf fst]. split; [|exact En].
        destruct Hl as [->|Hl]; [discriminate En | exact Hl].
      * right. destruct Hl0 as [[_ ->]|Hl0]; [|exact Hl0].
        split; [|apply Hne']. right. exists word. split; [exact Hword | reflexivity].
    + assert (Hline : line = "") by (destruct line; [reflexivity | discriminate En]).
      subst line.
      assert (Hw : ("" ++ word) ++ " " = "" \/ fits measure maxWidth all (("" ++ word) ++ " ")).
      { right. right. exists word. split; [exact Hword | reflexivity]. }
      destruct (IH _ _ _ _ _ Hrest Hw E) as [Hc Hl0]. split; [exact Hc|].
      right. destruct Hl0 as [[_ ->]|Hl0]; [|exact Hl0].
      split; [|apply Hne]. right. exists word. split; [exact Hword | reflexivity].
    + assert (Hfit : (measure ((line ++ word) ++ " ") <= maxWidth)%Q).
      { destruct (Qlt_le_dec maxWidth (measure ((line ++ word) ++ " "))) as [G|G];
          [|exact G].
        apply Qlt_bool_iff in G. congruence. }
      assert (Hw : (line ++ word) ++ " " = "" \/ fits measure maxWidth all ((line ++ word) ++ " ")).
      { right. left. exact Hfit. }
      destruct (IH _ _ _ _ _ Hrest Hw E) as [Hc Hl0]. split; [exact Hc|].
      right. destruct Hl0 as [[_ ->]|Hl0]; [|exact Hl0].
      split; [left; exact Hfit | apply Hne].
Qed.

End Wrap.

(** Splitting a text at its spaces loses nothing: there is always at
    least one word, no word contains a space, and the words joined by
    single spaces give the text back. *)
Lemma split_round_trip (text : string) :
  split text <> [] /\
  Forall (fun w => spaceFree w = true) (split text) /\
  String.concat " " (split text) = text.
Proof.
  split; [apply split_not_nil|]. split; [apply split_spaceFree | apply split_concat].
Qed.

(** X17. Wrapping draws every character of the text, in order and once:
    the lines drawn, put end to end, are the text followed by one space,
    whatever the measured widths and the width allowed. *)
Theorem wrapText_draws_the_text (measure : string -> Q) (text : string)
        (x y maxWidth lineHeight : Q) :
  joined (lineOf <$> fst (wrapText measure text x y maxWidth lineHeight))
  = text ++ " ".
Proof.
  unfold wrapText.
  destruct (wrapWords measure x maxWidth lineHeight (split text) "" y)
    as [[calls line] currentY] eqn:E.
  cbn [fst]. rewrite fmap_app, joined_app.
  cbn [fmap list_fmap lineOf fst]. unfold joined at 2. cbn [fold_right].
  rewrite append_nil_r.
  rewrite (wrapWords_content measure x maxWidth lineHeight _ _ _ _ _ _ E).
  cbn [String.append]. apply spaced_split.
Qed.

(** X18. The lines go down the canvas in equal steps: the k-th line drawn
    (from 0) is drawn at the given x and at y + k * lineHeight, at least
    one line is drawn, and the value returned is the y of the line after
    the last. *)
Theorem wrapText_layout (measure : string -> Q) (text : string)
        (x y maxWidth lineHeight : Q) :
  let calls := fst (wrapText measure text x y maxWidth lineHeight) in
  (1 <= length calls)%nat /\
  (forall k c, calls !! k = Some c ->
     snd (fst c) = x /\ (snd c == y + inject_Z (Z.of_nat k) * lineHeight)%Q) /\
  (snd (wrapText measure text x y maxWidth lineHeight)
   == y + inject_Z (Z.of_nat (length calls)) * lineHeight)%Q.
Proof.
  unfold wrapText.
  destruct (wrapWords measure x maxWidth lineHeight (split text) "" y)
    as [[calls line] currentY] eqn:E.
  cbn [fst snd].
  destruct (wrapWords_layout measure x maxWidth lineHeight _ _ _ _ _ _ E) as [Hy Hk].
  split; [rewrite length_app; cbn [length]; lia|]. split.
  - intros k c Hc. apply lookup_app_Some in Hc as [Hc|[Hge Hc]].
    + exact (Hk k c Hc).
    + apply list_lookup_singleton_Some in Hc as [Hz <-]. cbn [fst snd].
      split; [reflexivity|]. rewrite Hy.
      assert (Hkk : k = length calls)
        by (apply Nat.le_antisymm; [apply Nat.sub_0_le; exact Hz | exact Hge]).
      rewrite Hkk. reflexivity.
  - rewrite length_app. cbn [length]. rewrite Hy.
    rewrite Nat.add_1_r, Nat2Z.inj_succ. unfold Z.succ.
    rewrite inject_Z_plus. change (inject_Z 1) with 1%Q. ring.
Qed.

(** X19. No line is drawn empty, and every line drawn either measures at
    most the width allowed or consists of a single word of the text with
    its space: only a word that cannot be broken may overrun the width. *)
Theorem wrapText_lines_fit (measure : string -> Q) (text : string)
        (x y maxWidth lineHeight : Q) :
  Forall (fun c =>
            nonEmpty (lineOf c) = true /\
            ((measure (lineOf c) <= maxWidth)%Q \/
             exists w, In w (split text) /\ lineOf c = w ++ " "))
         (fst (wrapText measure text x y maxWidth lineHeight)).
Proof.
  unfold wrapText.
  destruct (wrapWords measure x maxWidth lineHeight (split text) "" y)
    as [[calls line] currentY] eqn:E.
  cbn [fst].
  destruct (wrapWords_fit measure x maxWidth lineHeight (split text) _ _ _ _ _ _
              (fun w H => H) (or_introl eq_refl) E) as [Hc Hl].
  apply Forall_app. split.
  - eapply Forall_impl; [exact Hc|]. intros c [Hf Hn]. split; assumption.
  - constructor; [|constructor]. cbn [lineOf fst].
    destruct Hl as [[Hnil _]|[Hf Hn]]; [exfalso; exact (split_not_nil text Hnil)|].
    split; assumption.
Qed.

End TextExtras.
